(** * rolling-gallery: the drag / flick / snap state machine of [script.js]

    A shallow embedding of [class RollingGallery] and of the [throttle]
    helper.  The gallery object, the part of the page it touches and the
    browser's timer tables form one explicit [World]; every method is a
    computation in a state-and-exception monad over it, statement by
    statement, so that what a handler has already written survives when a
    later statement throws.

    Numbers.  In the embedding JavaScript numbers are exact rationals ([Q]):
    [+ - * /] are the field operations, [%] is the remainder truncated
    toward zero, [Math.round] rounds half up, [Math.abs] is [Qabs]; [NaN],
    the infinities and divisions by zero are outside it.  The program
    computes in binary64, so the properties are stated on the expressions
    the code evaluates, operation by operation, with [=], and use no law of
    exact arithmetic that rounding breaks: they read the same with the
    program's operations.  Where rounding decides what the program does (a
    flick that never ends, a quotient that rounds onto a tie, ticks that do
    not add up to a turn) the facts are stated on binary64 itself, with the
    primitive floats of the library.  [==] compares the values of concrete
    examples. *)

From Stdlib Require Import QArith Qround Qabs ZArith List String Ascii Bool Lia Lqa DecimalString.
From Stdlib Require Import Floats.
Import ListNotations.
Open Scope Q_scope.

(** ** JavaScript numbers *)

(** [Math.round]: the nearest integer, a tie going toward plus infinity. *)
Definition Math_round (x : Q) : Z := Qfloor (x + (1 # 2)).

(** The integer part of a quotient, rounded toward zero. *)
Definition Qtrunc (x : Q) : Z := Z.quot (Qnum x) (Zpos (Qden x)).

(** [n % d]: what is left of [n] after taking away [d] a whole number of
    times, counted toward zero; it has the sign of [n]. *)
Definition js_rem (n d : Q) : Q := n - d * inject_Z (Qtrunc (n / d)).

Definition Math_abs (x : Q) : Q := Qabs x.

(** [x > y] as the boolean the code branches on. *)
Definition Qgtb (x y : Q) : bool := negb (Qle_bool x y).

(** A number is falsy exactly when it is zero. *)
Definition truthy (x : Q) : bool := negb (Qeq_bool x 0).

(** [xs.length] as a number. *)
Definition length_number {A} (xs : list A) : Q := inject_Z (Z.of_nat (List.length xs)).

Definition newline : string := String (ascii_of_nat 10) EmptyString.

(** ** Data *)

(** [this.options]: the defaults overridden by what the caller passed. *)
Module Options.
Record t := mk {
    images : list string;
    autoplay : bool;
    pauseOnHover : bool;
    smBreakpoint : Q;
    autoplayIntervalMs : Q;
    autoplayRotationDuration : Q;
    dragFactor : Q;
    flickDecay : Q;
    flickMinVelocity : Q;
    gapFactor : Q
  }.
End Options.

(** The [options] argument of the constructor: a key that is absent is
    [None] and leaves the default in place under the spread. *)
Module UserOptions.
Record t := mk {
    images : option (list string);
    autoplay : option bool;
    pauseOnHover : option bool;
    smBreakpoint : option Q;
    autoplayIntervalMs : option Q;
    autoplayRotationDuration : option Q;
    dragFactor : option Q;
    flickDecay : option Q;
    flickMinVelocity : option Q;
    gapFactor : option Q
  }.
Definition none : t := mk None None None None None None None None None None.
End UserOptions.

(** The inline style of the track element. *)
Module Style.
Record t := mk {
    transform : string;
    transition : string;
    cursor : string;
    width : string
  }.
Definition empty : t := mk "" "" "" "".
Definition set_transform (v : string) (s : t) : t :=
    mk v (transition s) (cursor s) (width s).
Definition set_transition (v : string) (s : t) : t :=
    mk (transform s) v (cursor s) (width s).
Definition set_cursor (v : string) (s : t) : t :=
    mk (transform s) (transition s) v (width s).
Definition set_width (v : string) (s : t) : t :=
    mk (transform s) (transition s) (cursor s) v.
End Style.

(** One [div.gallery-item] with its [img.gallery-img]. *)
Module Item.
Record t := mk {
    className : string;
    img_className : string;
    img_src : string;
    img_alt : string;
    img_loading : string;
    style_transform : string
  }.
End Item.

(** The [div.gallery-track] element: its style, its children and the pointer
    it has captured.  The gallery holds the only reference to it, so the
    element is kept where the reference is. *)
Module Track.
Record t := mk {
    style : Style.t;
    items : list Item.t;
    pointerCapture : option nat
  }.
Definition blank : t := mk Style.empty [] None.
Definition set_style (v : Style.t) (k : t) : t := mk v (items k) (pointerCapture k).
Definition set_items (v : list Item.t) (k : t) : t := mk (style k) v (pointerCapture k).
Definition set_pointerCapture (v : option nat) (k : t) : t := mk (style k) (items k) v.
End Track.

(** A timer handle: a positive integer, hence truthy. *)
Definition handle := positive.

(** The fields of a [RollingGallery] instance ([elements.galleryTrack] is the
    one entry of [this.elements] the class uses). *)
Record Gallery := mkGallery {
  options : Options.t;
  images : list string;
  isScreenSizeSm : bool;
  rotationDegrees : Q;
  autoplayIntervalId : option handle;
  animationFrameId : option handle;
  isDragging : bool;
  startX : Q;
  startRotation : Q;
  lastMoveX : Q;
  lastMoveTime : Q;
  currentVelocity : Q;
  galleryTrack : option Track.t
}.

Definition set_isScreenSizeSm (v : bool) (g : Gallery) : Gallery :=
  mkGallery (options g) (images g) v (rotationDegrees g) (autoplayIntervalId g)
    (animationFrameId g) (isDragging g) (startX g) (startRotation g) (lastMoveX g)
    (lastMoveTime g) (currentVelocity g) (galleryTrack g).
Definition set_rotationDegrees (v : Q) (g : Gallery) : Gallery :=
  mkGallery (options g) (images g) (isScreenSizeSm g) v (autoplayIntervalId g)
    (animationFrameId g) (isDragging g) (startX g) (startRotation g) (lastMoveX g)
    (lastMoveTime g) (currentVelocity g) (galleryTrack g).
Definition set_autoplayIntervalId (v : option handle) (g : Gallery) : Gallery :=
  mkGallery (options g) (images g) (isScreenSizeSm g) (rotationDegrees g) v
    (animationFrameId g) (isDragging g) (startX g) (startRotation g) (lastMoveX g)
    (lastMoveTime g) (currentVelocity g) (galleryTrack g).
Definition set_animationFrameId (v : option handle) (g : Gallery) : Gallery :=
  mkGallery (options g) (images g) (isScreenSizeSm g) (rotationDegrees g)
    (autoplayIntervalId g) v (isDragging g) (startX g) (startRotation g) (lastMoveX g)
    (lastMoveTime g) (currentVelocity g) (galleryTrack g).
Definition set_isDragging (v : bool) (g : Gallery) : Gallery :=
  mkGallery (options g) (images g) (isScreenSizeSm g) (rotationDegrees g)
    (autoplayIntervalId g) (animationFrameId g) v (startX g) (startRotation g)
    (lastMoveX g) (lastMoveTime g) (currentVelocity g) (galleryTrack g).
Definition set_startX (v : Q) (g : Gallery) : Gallery :=
  mkGallery (options g) (images g) (isScreenSizeSm g) (rotationDegrees g)
    (autoplayIntervalId g) (animationFrameId g) (isDragging g) v (startRotation g)
    (lastMoveX g) (lastMoveTime g) (currentVelocity g) (galleryTrack g).
Definition set_startRotation (v : Q) (g : Gallery) : Gallery :=
  mkGallery (options g) (images g) (isScreenSizeSm g) (rotationDegrees g)
    (autoplayIntervalId g) (animationFrameId g) (isDragging g) (startX g) v
    (lastMoveX g) (lastMoveTime g) (currentVelocity g) (galleryTrack g).
Definition set_lastMoveX (v : Q) (g : Gallery) : Gallery :=
  mkGallery (options g) (images g) (isScreenSizeSm g) (rotationDegrees g)
    (autoplayIntervalId g) (animationFrameId g) (isDragging g) (startX g)
    (startRotation g) v (lastMoveTime g) (currentVelocity g) (galleryTrack g).
Definition set_lastMoveTime (v : Q) (g : Gallery) : Gallery :=
  mkGallery (options g) (images g) (isScreenSizeSm g) (rotationDegrees g)
    (autoplayIntervalId g) (animationFrameId g) (isDragging g) (startX g)
    (startRotation g) (lastMoveX g) v (currentVelocity g) (galleryTrack g).
Definition set_currentVelocity (v : Q) (g : Gallery) : Gallery :=
  mkGallery (options g) (images g) (isScreenSizeSm g) (rotationDegrees g)
    (autoplayIntervalId g) (animationFrameId g) (isDragging g) (startX g)
    (startRotation g) (lastMoveX g) (lastMoveTime g) v (galleryTrack g).
Definition set_galleryTrack (v : option Track.t) (g : Gallery) : Gallery :=
  mkGallery (options g) (images g) (isScreenSizeSm g) (rotationDegrees g)
    (autoplayIntervalId g) (animationFrameId g) (isDragging g) (startX g)
    (startRotation g) (lastMoveX g) (lastMoveTime g) (currentVelocity g) v.

(** The object [this] is before the constructor has assigned anything. *)
Definition blank_gallery : Gallery :=
  mkGallery (Options.mk [] false false 0 0 0 0 0 0 0) [] false 0 None None false
    0 0 0 0 0 None.

(** One entry of a [TouchList]. *)
Module Touch.
Record t := mk { clientX : Q }.
End Touch.

(** The event object a pointer listener receives.  A [PointerEvent] carries
    [button], [clientX] and [pointerId] and has no [touches] property
    ([None]); the handlers also look for a [touches] list, which is kept as
    an optional property. *)
Module PointerEvent.
Record t := mk {
    button : Z;
    clientX : Q;
    touches : option (list Touch.t);
    pointerId : nat
  }.
End PointerEvent.

(** The closure state of [throttle(func, limit)]; [lastArgs] is either the
    [arguments] object of the last call (truthy) or [null]. *)
Record Throttle := mkThrottle {
  inThrottle : bool;
  lastArgs : bool
}.

Inductive EventType :=
  resize | pointerdown | pointermove | pointerup | pointercancel | mouseenter | mouseleave.

Inductive EventTarget := the_window | the_document | the_track.

(** The functions the class registers as listeners. *)
Inductive Listener :=
  | throttled_resize
  | bound_handlePointerDown
  | bound_handlePointerMove
  | bound_handlePointerUp
  | bound_handleMouseEnter
  | bound_handleMouseLeave.

(** The two callbacks handed to [setTimeout]. *)
Inductive TimeoutCallback := throttle_release | transition_reset.

(** The gallery, the page around it and the browser's pending callbacks.
    [container_has_track] says whether the container element holds a
    [.gallery-track]; [intervals] are the live [setInterval] timers with their period (each
    runs the autoplay tick), [frames] the pending [requestAnimationFrame]
    requests (each runs [animate]), [timeouts] the pending [setTimeout]
    calls with their delay.  [uncaught] collects the exceptions that leave a
    listener or a callback. *)
Record World := mkWorld {
  this : Gallery;
  innerWidth : Q;
  container_has_track : bool;
  throttle_state : Throttle;
  listeners : list (EventTarget * EventType * Listener);
  intervals : list (handle * Q);
  frames : list handle;
  timeouts : list (handle * TimeoutCallback * Q);
  nextHandle : handle;
  console : list string;
  uncaught : list string
}.

Definition set_this (v : Gallery) (w : World) : World :=
  mkWorld v (innerWidth w) (container_has_track w) (throttle_state w) (listeners w) (intervals w)
    (frames w) (timeouts w) (nextHandle w) (console w) (uncaught w).
Definition set_innerWidth (v : Q) (w : World) : World :=
  mkWorld (this w) v (container_has_track w) (throttle_state w) (listeners w) (intervals w)
    (frames w) (timeouts w) (nextHandle w) (console w) (uncaught w).
Definition set_container_has_track (v : bool) (w : World) : World :=
  mkWorld (this w) (innerWidth w) v (throttle_state w) (listeners w) (intervals w)
    (frames w) (timeouts w) (nextHandle w) (console w) (uncaught w).
Definition set_throttle_state (v : Throttle) (w : World) : World :=
  mkWorld (this w) (innerWidth w) (container_has_track w) v (listeners w) (intervals w)
    (frames w) (timeouts w) (nextHandle w) (console w) (uncaught w).
Definition set_listeners (v : list (EventTarget * EventType * Listener)) (w : World) : World :=
  mkWorld (this w) (innerWidth w) (container_has_track w) (throttle_state w) v (intervals w)
    (frames w) (timeouts w) (nextHandle w) (console w) (uncaught w).
Definition set_intervals (v : list (handle * Q)) (w : World) : World :=
  mkWorld (this w) (innerWidth w) (container_has_track w) (throttle_state w) (listeners w) v
    (frames w) (timeouts w) (nextHandle w) (console w) (uncaught w).
Definition set_frames (v : list handle) (w : World) : World :=
  mkWorld (this w) (innerWidth w) (container_has_track w) (throttle_state w) (listeners w)
    (intervals w) v (timeouts w) (nextHandle w) (console w) (uncaught w).
Definition set_timeouts (v : list (handle * TimeoutCallback * Q)) (w : World) : World :=
  mkWorld (this w) (innerWidth w) (container_has_track w) (throttle_state w) (listeners w)
    (intervals w) (frames w) v (nextHandle w) (console w) (uncaught w).
Definition set_nextHandle (v : handle) (w : World) : World :=
  mkWorld (this w) (innerWidth w) (container_has_track w) (throttle_state w) (listeners w)
    (intervals w) (frames w) (timeouts w) v (console w) (uncaught w).
Definition set_console (v : list string) (w : World) : World :=
  mkWorld (this w) (innerWidth w) (container_has_track w) (throttle_state w) (listeners w)
    (intervals w) (frames w) (timeouts w) (nextHandle w) v (uncaught w).
Definition set_uncaught (v : list string) (w : World) : World :=
  mkWorld (this w) (innerWidth w) (container_has_track w) (throttle_state w) (listeners w)
    (intervals w) (frames w) (timeouts w) (nextHandle w) (console w) v.
Definition set_options (v : Options.t) (g : Gallery) : Gallery :=
  mkGallery v (images g) (isScreenSizeSm g) (rotationDegrees g) (autoplayIntervalId g)
    (animationFrameId g) (isDragging g) (startX g) (startRotation g) (lastMoveX g)
    (lastMoveTime g) (currentVelocity g) (galleryTrack g).
Definition set_images (v : list string) (g : Gallery) : Gallery :=
  mkGallery (options g) v (isScreenSizeSm g) (rotationDegrees g) (autoplayIntervalId g)
    (animationFrameId g) (isDragging g) (startX g) (startRotation g) (lastMoveX g)
    (lastMoveTime g) (currentVelocity g) (galleryTrack g).

(** What the environment can do to the page: resize the window, dispatch a
    DOM event ([now] is what [performance.now()] returns while its listeners
    run), or run a pending timer callback. *)
Inductive Event :=
  | WindowResized (width : Q)
  | Dispatched (type : EventType) (e : PointerEvent.t) (now : Q)
  | IntervalFires (id : handle)
  | AnimationFrameFires (id : handle)
  | TimeoutFires (id : handle).

(** ** The monad: state, and exceptions that keep the state *)

Inductive Completion (A : Type) :=
  | Normal (a : A)
  | Throw (error : string).
Arguments Normal {A} a.
Arguments Throw {A} error.

Definition M (A : Type) : Type := World -> Completion A * World.

Definition ret {A} (a : A) : M A := fun w => (Normal a, w).

Definition bind {A B} (m : M A) (k : A -> M B) : M B :=
  fun w => match m w with
           | (Normal a, w') => k a w'
           | (Throw err, w') => (Throw err, w')
           end.

Definition throw {A} (error : string) : M A := fun w => (Throw error, w).

Notation "x <- m ;; k" := (bind m (fun x => k))
  (at level 61, m at next level, right associativity).
Notation "m ;; k" := (bind m (fun _ => k))
  (at level 61, right associativity).

Definition world : M World := fun w => (Normal w, w).
Definition modify (f : World -> World) : M unit := fun w => (Normal tt, f w).

(** Reading [this] and assigning to one of its fields. *)
Definition this_object : M Gallery := fun w => (Normal (this w), w).
Definition assign (f : Gallery -> Gallery) : M unit :=
  modify (fun w => set_this (f (this w)) w).

(** A listener or callback runs to completion; an exception that leaves it
    is reported and the state it reached stays. *)
Definition settle (m : M unit) (w : World) : World :=
  match m w with
  | (Normal _, w') => w'
  | (Throw err, w') => set_uncaught (uncaught w' ++ [err]) w'
  end.

(** ** The browser *)

Definition handle_is (id : handle) {A} (p : handle * A) : bool := Pos.eqb (fst p) id.

Definition setInterval (period : Q) : M handle :=
  fun w => let id := nextHandle w in
           (Normal id, set_nextHandle (Pos.succ id) (set_intervals (intervals w ++ [(id, period)]) w)).

Definition clearInterval (id : handle) : M unit :=
  modify (fun w => set_intervals (filter (fun p => negb (handle_is id p)) (intervals w)) w).

Definition requestAnimationFrame : M handle :=
  fun w => let id := nextHandle w in
           (Normal id, set_nextHandle (Pos.succ id) (set_frames (frames w ++ [id]) w)).

Definition cancelAnimationFrame (id : handle) : M unit :=
  modify (fun w => set_frames (filter (fun h => negb (Pos.eqb h id)) (frames w)) w).

Definition setTimeout (callback : TimeoutCallback) (delay : Q) : M handle :=
  fun w => let id := nextHandle w in
           (Normal id,
            set_nextHandle (Pos.succ id) (set_timeouts (timeouts w ++ [(id, callback, delay)]) w)).

Definition console_warn (message : string) : M unit :=
  modify (fun w => set_console (console w ++ [message]) w).

Definition addEventListener (target : EventTarget) (type : EventType) (l : Listener) : M unit :=
  modify (fun w => set_listeners (listeners w ++ [(target, type, l)]) w).

Definition window_innerWidth : M Q := fun w => (Normal (innerWidth w), w).

(** [this.elements.galleryTrack.<property>]: reading a property of a track
    that is not there is a TypeError. *)
Definition elements_galleryTrack : M Track.t :=
  g <- this_object ;;
  match galleryTrack g with
  | Some k => ret k
  | None => throw "TypeError: Cannot read properties of undefined"
  end.

Definition put_track (k : Track.t) : M unit := assign (set_galleryTrack (Some k)).

Definition track_style (f : Style.t -> Style.t) : M unit :=
  k <- elements_galleryTrack ;;
  put_track (Track.set_style (f (Track.style k)) k).

Definition setPointerCapture (pointerId : nat) : M unit :=
  k <- elements_galleryTrack ;;
  put_track (Track.set_pointerCapture (Some pointerId) k).

Definition releasePointerCapture (pointerId : nat) : M unit :=
  k <- elements_galleryTrack ;;
  match Track.pointerCapture k with
  | Some p => if Nat.eqb p pointerId then put_track (Track.set_pointerCapture None k) else ret tt
  | None => ret tt
  end.

(** [e.clientX || e.touches[0].clientX]: the right operand is evaluated when
    [e.clientX] is falsy, that is when it is [0]. *)
Definition clientX_or_touch (e : PointerEvent.t) : M Q :=
  if truthy (PointerEvent.clientX e) then ret (PointerEvent.clientX e)
  else match PointerEvent.touches e with
       | None => throw "TypeError: Cannot read properties of undefined (reading '0')"
       | Some [] => throw "TypeError: Cannot read properties of undefined (reading 'clientX')"
       | Some (t :: _) => ret (Touch.clientX t)
       end.

(** [array.forEach((x, index) => ...)]. *)
Fixpoint forEach {A} (f : A -> nat -> M unit) (xs : list A) (index : nat) : M unit :=
  match xs with
  | [] => ret tt
  | x :: rest => f x index ;; forEach f rest (S index)
  end.

(** ** class RollingGallery *)

(** The built-ins the code calls and the model does not define: how a number
    prints inside a template literal, [Math.tan] and [Math.PI]. *)
Class Builtins := {
  Number_toString : Q -> string;
  Math_tan : Q -> Q;
  Math_PI : Q
}.

Section RollingGallery.

Context {builtins : Builtins}.

Definition default {A} (d : A) (o : option A) : A :=
  match o with Some a => a | None => d end.

(** [{ images: [], autoplay: false, ..., ...options }]. *)
Definition merge_options (o : UserOptions.t) : Options.t :=
  Options.mk
    (default [] (UserOptions.images o))
    (default false (UserOptions.autoplay o))
    (default false (UserOptions.pauseOnHover o))
    (default 640 (UserOptions.smBreakpoint o))
    (default 4000 (UserOptions.autoplayIntervalMs o))
    (default 3000 (UserOptions.autoplayRotationDuration o))
    (default (5 # 100) (UserOptions.dragFactor o))
    (default (92 # 100) (UserOptions.flickDecay o))
    (default (1 # 10) (UserOptions.flickMinVelocity o))
    (default (95 # 100) (UserOptions.gapFactor o)).

Definition placeholder : string := "https://via.placeholder.com/300x120?text=No+Images".

Definition no_images_warning : string :=
  "RollingGallery: No images provided. Please provide an array of image URLs.".

(** [`rotateY(${deg}deg)`]. *)
Definition rotateY (deg : Q) : string := "rotateY(" ++ Number_toString deg ++ "deg)".

Definition updateTransform : M unit :=
  g <- this_object ;;
  match galleryTrack g with
  | Some k =>
      put_track (Track.set_style (Style.set_transform (rotateY (rotationDegrees g)) (Track.style k)) k)
  | None => ret tt
  end.

(** The template literal of an item's transform, line breaks and indentation
    included. *)
Definition item_transform (angle radius gapFactor : Q) : string :=
  newline ++ "                rotateY(" ++ Number_toString angle ++ "deg) " ++
  newline ++ "                translateZ(" ++ Number_toString radius ++ "px) " ++
  newline ++ "                scale(" ++ Number_toString gapFactor ++ ") " ++
  newline ++ "            ".

(** The item is appended with the transform it is given right after. *)
Definition renderGalleryItems : M unit :=
  k <- elements_galleryTrack ;;
  put_track (Track.set_items [] k) ;;
  g <- this_object ;;
  let faceWidth : Q := if isScreenSizeSm g then 150 else 350 in
  let radius := (faceWidth / 2) / Math_tan (Math_PI / length_number (images g)) in
  track_style (Style.set_width (Number_toString faceWidth ++ "px")) ;;
  forEach (fun imageUrl index =>
    g <- this_object ;;
    let angle := (360 / length_number (images g)) * inject_Z (Z.of_nat index) in
    let item := Item.mk "gallery-item" "gallery-img" imageUrl
                  ("Gallery image " ++ Number_toString (inject_Z (Z.of_nat index) + 1))
                  "lazy"
                  (item_transform angle radius (Options.gapFactor (options g))) in
    k <- elements_galleryTrack ;;
    put_track (Track.set_items (Track.items k ++ [item]) k))
    (images g) 0.

Definition handleResize : M unit :=
  g <- this_object ;;
  width <- window_innerWidth ;;
  let newIsScreenSizeSm := Qle_bool width (Options.smBreakpoint (options g)) in
  if negb (Bool.eqb (isScreenSizeSm g) newIsScreenSizeSm) then
    assign (set_isScreenSizeSm newIsScreenSizeSm) ;;
    renderGalleryItems ;;
    updateTransform
  else ret tt.

(** [throttle(func, limit)]: the function it returns. *)
Definition throttled (func : M unit) (limit : Q) : M unit :=
  modify (fun w => set_throttle_state (mkThrottle (inThrottle (throttle_state w)) true) w) ;;
  w <- world ;;
  if negb (inThrottle (throttle_state w)) then
    modify (fun w => set_throttle_state (mkThrottle true (lastArgs (throttle_state w))) w) ;;
    _ <- setTimeout throttle_release limit ;;
    func
  else ret tt.

(** The callback [throttled] hands to [setTimeout]. *)
Definition throttle_timeout (func : M unit) : M unit :=
  modify (fun w => set_throttle_state (mkThrottle false (lastArgs (throttle_state w))) w) ;;
  w <- world ;;
  if lastArgs (throttle_state w) then
    func ;;
    modify (fun w => set_throttle_state (mkThrottle (inThrottle (throttle_state w)) false) w)
  else ret tt.

Definition stopAutoplay : M unit :=
  g <- this_object ;;
  match autoplayIntervalId g with
  | Some id => clearInterval id ;; assign (set_autoplayIntervalId None)
  | None => ret tt
  end.

(** The arrow function [startAutoplay] hands to [setInterval]. *)
Definition autoplay_tick : M unit :=
  g <- this_object ;;
  let rotationPerFace := 360 / length_number (images g) in
  assign (set_rotationDegrees (rotationDegrees g - rotationPerFace)) ;;
  updateTransform.

Definition startAutoplay : M unit :=
  g <- this_object ;;
  match autoplayIntervalId g with
  | Some _ => ret tt
  | None =>
      track_style (Style.set_transition
        ("transform " ++ Number_toString (Options.autoplayRotationDuration (options g) / 1000)
           ++ "s linear")) ;;
      id <- setInterval (Options.autoplayIntervalMs (options g)) ;;
      assign (set_autoplayIntervalId (Some id))
  end.

Definition handleMouseEnter : M unit :=
  g <- this_object ;;
  if Options.pauseOnHover (options g) then stopAutoplay else ret tt.

Definition handleMouseLeave : M unit :=
  g <- this_object ;;
  if Options.pauseOnHover (options g) && Options.autoplay (options g)
  then startAutoplay else ret tt.

Definition cancelFlickAnimation : M unit :=
  g <- this_object ;;
  match animationFrameId g with
  | Some id => cancelAnimationFrame id ;; assign (set_animationFrameId None)
  | None => ret tt
  end.

(** The rotation [snapToNearestFace] moves to, from [images.length] and the
    current rotation. *)
Definition targetRotation (n rotation : Q) : Q :=
  let rotationPerFace := 360 / n in
  let normalizedRotation := js_rem rotation 360 in
  let nearestFaceIndex := Math_round (normalizedRotation / rotationPerFace) in
  inject_Z nearestFaceIndex * rotationPerFace.

Definition snapToNearestFace : M unit :=
  g <- this_object ;;
  let target := targetRotation (length_number (images g)) (rotationDegrees g) in
  track_style (Style.set_transition "transform 0.3s ease-out") ;;
  assign (set_rotationDegrees target) ;;
  updateTransform ;;
  _ <- setTimeout transition_reset 300 ;;
  ret tt.

(** The callback [snapToNearestFace] hands to [setTimeout]. *)
Definition snap_timeout : M unit :=
  g <- this_object ;;
  match isDragging g, autoplayIntervalId g with
  | false, None => track_style (Style.set_transition "none")
  | _, _ => ret tt
  end.

(** The arrow function [animate] of [startFlickAnimation]: one frame. *)
Definition animate : M unit :=
  g <- this_object ;;
  assign (set_rotationDegrees (rotationDegrees g + currentVelocity g)) ;;
  updateTransform ;;
  g <- this_object ;;
  assign (set_currentVelocity (currentVelocity g * Options.flickDecay (options g))) ;;
  g <- this_object ;;
  if Qgtb (Math_abs (currentVelocity g)) (Options.flickMinVelocity (options g)) then
    id <- requestAnimationFrame ;;
    assign (set_animationFrameId (Some id))
  else
    snapToNearestFace ;;
    g <- this_object ;;
    if Options.autoplay (options g) then startAutoplay else ret tt.

Definition startFlickAnimation : M unit :=
  cancelFlickAnimation ;;
  id <- requestAnimationFrame ;;
  assign (set_animationFrameId (Some id)).

(** *** Pointer handlers; [now] is the value of [performance.now()] *)

Definition handlePointerDown (now : Q) (e : PointerEvent.t) : M unit :=
  if negb (Z.eqb (PointerEvent.button e) 0)
     && match PointerEvent.touches e with None => true | Some _ => false end
  then ret tt
  else
    assign (set_isDragging true) ;;
    x <- clientX_or_touch e ;;
    assign (set_startX x) ;;
    g <- this_object ;;
    assign (set_lastMoveX (startX g)) ;;
    assign (set_lastMoveTime now) ;;
    g <- this_object ;;
    assign (set_startRotation (rotationDegrees g)) ;;
    assign (set_currentVelocity 0) ;;
    stopAutoplay ;;
    cancelFlickAnimation ;;
    track_style (Style.set_transition "none") ;;
    track_style (Style.set_cursor "grabbing") ;;
    setPointerCapture (PointerEvent.pointerId e).

Definition handlePointerMove (now : Q) (e : PointerEvent.t) : M unit :=
  g <- this_object ;;
  if negb (isDragging g) then ret tt
  else
    currentX <- clientX_or_touch e ;;
    let currentTime := now in
    g <- this_object ;;
    let deltaX := currentX - startX g in
    assign (set_rotationDegrees (startRotation g + deltaX * Options.dragFactor (options g))) ;;
    g <- this_object ;;
    (if Qgtb (currentTime - lastMoveTime g) 0 then
       assign (set_currentVelocity
                 ((((currentX - lastMoveX g) / (currentTime - lastMoveTime g)) * 1000)
                  * Options.dragFactor (options g)))
     else ret tt) ;;
    assign (set_lastMoveX currentX) ;;
    assign (set_lastMoveTime currentTime) ;;
    updateTransform.

Definition handlePointerUp (e : PointerEvent.t) : M unit :=
  g <- this_object ;;
  if negb (isDragging g) then ret tt
  else
    assign (set_isDragging false) ;;
    track_style (Style.set_cursor "grab") ;;
    releasePointerCapture (PointerEvent.pointerId e) ;;
    g <- this_object ;;
    if Qgtb (Math_abs (currentVelocity g)) (Options.flickMinVelocity (options g)) then
      startFlickAnimation
    else
      snapToNearestFace ;;
      g <- this_object ;;
      if Options.autoplay (options g) then startAutoplay else ret tt.

(** *** Set-up *)

(** [container.innerHTML = ...]: the container now holds a fresh
    [div.gallery-track]. *)
Definition renderBaseStructure : M unit :=
  modify (set_container_has_track true).

(** [container.querySelector('.gallery-track')]: the element, or [null]. *)
Definition getElements : M unit :=
  w <- world ;;
  assign (set_galleryTrack (if container_has_track w then Some Track.blank else None)).

Definition attachEventListeners : M unit :=
  addEventListener the_window resize throttled_resize ;;
  _ <- elements_galleryTrack ;;
  addEventListener the_track pointerdown bound_handlePointerDown ;;
  addEventListener the_document pointermove bound_handlePointerMove ;;
  addEventListener the_document pointerup bound_handlePointerUp ;;
  addEventListener the_document pointercancel bound_handlePointerUp ;;
  g <- this_object ;;
  if Options.autoplay (options g) && Options.pauseOnHover (options g) then
    addEventListener the_track mouseenter bound_handleMouseEnter ;;
    addEventListener the_track mouseleave bound_handleMouseLeave
  else ret tt.

Definition init : M unit :=
  renderBaseStructure ;;
  getElements ;;
  attachEventListeners ;;
  renderGalleryItems ;;
  updateTransform ;;
  g <- this_object ;;
  if Options.autoplay (options g) then startAutoplay else ret tt.

Definition constructor (o : UserOptions.t) : M unit :=
  assign (set_options (merge_options o)) ;;
  g <- this_object ;;
  assign (set_images (Options.images (options g))) ;;
  g <- this_object ;;
  (if Nat.eqb (List.length (images g)) 0 then
     console_warn no_images_warning ;;
     assign (set_images [placeholder])
   else ret tt) ;;
  g <- this_object ;;
  width <- window_innerWidth ;;
  assign (set_isScreenSizeSm (Qle_bool width (Options.smBreakpoint (options g)))) ;;
  assign (set_rotationDegrees 0) ;;
  assign (set_autoplayIntervalId None) ;;
  assign (set_animationFrameId None) ;;
  assign (set_isDragging false) ;;
  assign (set_startX 0) ;;
  assign (set_startRotation 0) ;;
  assign (set_lastMoveX 0) ;;
  assign (set_lastMoveTime 0) ;;
  assign (set_currentVelocity 0) ;;
  assign (set_galleryTrack None) ;;
  init.

(** *** The page *)

(** A page of the given width with nothing on it yet. *)
Definition fresh_page (width : Q) : World :=
  mkWorld blank_gallery width false (mkThrottle false false) [] [] [] [] 1%positive [] [].

(** [new RollingGallery(container, options)] on a fresh page. *)
Definition new_RollingGallery (o : UserOptions.t) (width : Q) : World :=
  settle (constructor o) (fresh_page width).

Definition run_listener (l : Listener) (e : PointerEvent.t) (now : Q) : M unit :=
  match l with
  | throttled_resize => throttled handleResize 100
  | bound_handlePointerDown => handlePointerDown now e
  | bound_handlePointerMove => handlePointerMove now e
  | bound_handlePointerUp => handlePointerUp e
  | bound_handleMouseEnter => handleMouseEnter
  | bound_handleMouseLeave => handleMouseLeave
  end.

Definition run_timeout (callback : TimeoutCallback) : M unit :=
  match callback with
  | throttle_release => throttle_timeout handleResize
  | transition_reset => snap_timeout
  end.

Definition EventType_eqb (a b : EventType) : bool :=
  match a, b with
  | resize, resize | pointerdown, pointerdown | pointermove, pointermove
  | pointerup, pointerup | pointercancel, pointercancel
  | mouseenter, mouseenter | mouseleave, mouseleave => true
  | _, _ => false
  end.

(** The listeners registered for a type, in registration order. *)
Definition listeners_for (type : EventType) (w : World) : list Listener :=
  map snd (filter (fun r => EventType_eqb (snd (fst r)) type) (listeners w)).

(** One turn of the event loop. *)
Definition fire (ev : Event) (w : World) : World :=
  match ev with
  | WindowResized width =>
      let w := set_innerWidth width w in
      fold_left (fun w l => settle (run_listener l (PointerEvent.mk 0 0 None 0) 0) w)
        (listeners_for resize w) w
  | Dispatched type e now =>
      fold_left (fun w l => settle (run_listener l e now) w) (listeners_for type w) w
  | IntervalFires id =>
      if existsb (handle_is id) (intervals w) then settle autoplay_tick w else w
  | AnimationFrameFires id =>
      if existsb (Pos.eqb id) (frames w) then
        settle animate (set_frames (filter (fun h => negb (Pos.eqb h id)) (frames w)) w)
      else w
  | TimeoutFires id =>
      match find (fun p => handle_is id (fst p)) (timeouts w) with
      | Some (_, callback, _) =>
          settle (run_timeout callback)
            (set_timeouts (filter (fun p => negb (handle_is id (fst p))) (timeouts w)) w)
      | None => w
      end
  end.

Definition run (trace : list Event) (w : World) : World :=
  fold_left (fun w ev => fire ev w) trace w.

(** The worlds a gallery can be in: built by the constructor, then driven by
    events. *)
Inductive reachable : World -> Prop :=
  | reachable_new : forall o width, reachable (new_RollingGallery o width)
  | reachable_fire : forall ev w, reachable w -> reachable (fire ev w).


End RollingGallery.

(** ** Vocabulary of the properties *)

(** No integer is nearer to [x] than [k]. *)
Definition nearest_integer (x : Q) (k : Z) : Prop :=
  forall j : Z, Qabs (inject_Z k - x) <= Qabs (inject_Z j - x).

(** [x op y op y ... op y], with [n] times [op y], evaluated from the left
    as a loop does that runs [x = x op y] once per turn. *)
Fixpoint repeatedly {A} (op : A -> A -> A) (x y : A) (n : nat) : A :=
  match n with
  | O => x
  | S n' => op (repeatedly op x y n') y
  end.

(** Whether a flick in binary64 is still above the threshold [m] at each of
    its first [n] frames, from the velocity [v]. *)
Fixpoint stays_above (m d v : float) (n : nat) : bool :=
  match n with
  | O => true
  | S n' => PrimFloat.ltb m (PrimFloat.abs v) && stays_above m d (PrimFloat.mul v d) n'
  end.

(** [t] is a multiple of [step], and no multiple of [step] is nearer to [x]. *)
Definition nearest_multiple (step x t : Q) : Prop :=
  (exists k : Z, t == inject_Z k * step) /\
  forall j : Z, Qabs (t - x) <= Qabs (inject_Z j * step - x).

(** The track is there and its transform shows the current rotation. *)
Definition track_shows_rotation {builtins : Builtins} (w : World) : Prop :=
  exists k, galleryTrack (this w) = Some k /\
            Style.transform (Track.style k) = rotateY (rotationDegrees (this w)).

(** The live intervals are exactly the one [autoplayIntervalId] names, with
    the period of the options. *)
Definition one_interval (w : World) : Prop :=
  match autoplayIntervalId (this w) with
  | Some id => intervals w = [(id, Options.autoplayIntervalMs (options (this w)))]
  | None => intervals w = []
  end.

(** At most one animation frame is pending, the one [animationFrameId] names. *)
Definition one_frame (w : World) : Prop :=
  frames w = [] \/ exists id, frames w = [id] /\ animationFrameId (this w) = Some id.

(** The invariant of the reachable worlds. *)
Definition Inv {builtins : Builtins} (w : World) : Prop :=
  track_shows_rotation w /\ one_interval w /\ one_frame w.

(** The items [renderGalleryItems] appends, one per image. *)
Fixpoint gallery_items {builtins : Builtins} (n radius gapFactor : Q) (xs : list string)
  (index : nat) : list Item.t :=
  match xs with
  | [] => []
  | imageUrl :: rest =>
      Item.mk "gallery-item" "gallery-img" imageUrl
        ("Gallery image " ++ Number_toString (inject_Z (Z.of_nat index) + 1)) "lazy"
        (item_transform ((360 / n) * inject_Z (Z.of_nat index)) radius gapFactor)
      :: gallery_items n radius gapFactor rest (S index)
  end.

(** The track [renderGalleryItems] leaves behind. *)
Definition rendered_track {builtins : Builtins} (g : Gallery) (k : Track.t) : Track.t :=
  let faceWidth : Q := if isScreenSizeSm g then 150 else 350 in
  let n := length_number (images g) in
  Track.mk (Style.set_width (Number_toString faceWidth ++ "px") (Track.style k))
    (gallery_items n ((faceWidth / 2) / Math_tan (Math_PI / n)) (Options.gapFactor (options g))
       (images g) 0)
    (Track.pointerCapture k).

(** What no listener or callback writes: the options, the image list and
    the registered listeners. *)
Definition fixed (w : World)
  : Options.t * list string * list (EventTarget * EventType * Listener) :=
  (options (this w), images (this w), listeners w).

(** The world with [options.images] and the console log blanked: the two
    places where a gallery built from an empty image list differs from one
    built from the placeholder alone. *)
Definition forget_input (w : World) : World :=
  let o := options (this w) in
  set_console []
    (set_this
       (set_options
          (Options.mk [] (Options.autoplay o) (Options.pauseOnHover o) (Options.smBreakpoint o)
             (Options.autoplayIntervalMs o) (Options.autoplayRotationDuration o)
             (Options.dragFactor o) (Options.flickDecay o) (Options.flickMinVelocity o)
             (Options.gapFactor o))
          (this w)) w).

(** The caller's options with [images] replaced. *)
Definition with_images (v : list string) (o : UserOptions.t) : UserOptions.t :=
  UserOptions.mk (Some v) (UserOptions.autoplay o) (UserOptions.pauseOnHover o)
    (UserOptions.smBreakpoint o) (UserOptions.autoplayIntervalMs o)
    (UserOptions.autoplayRotationDuration o) (UserOptions.dragFactor o)
    (UserOptions.flickDecay o) (UserOptions.flickMinVelocity o) (UserOptions.gapFactor o).

(** The condition on the world a computation starts in for [Q] to hold of
    its result when it completes, and [E] when it throws. *)
Definition wp {A} (m : M A) (Q : A -> World -> Prop) (E : string -> World -> Prop)
  (w : World) : Prop :=
  match m w with
  | (Normal a, w') => Q a w'
  | (Throw err, w') => E err w'
  end.

(** *** A concrete page, for the examples *)

Definition show_Z (z : Z) : string := NilZero.string_of_int (Z.to_int z).

(** A stand-in for the printing of numbers: an integer in decimal, anything
    else as a fraction in lowest terms. *)
Definition show_number (q : Q) : string :=
  let r := Qred q in
  if Pos.eqb (Qden r) 1 then show_Z (Qnum r)
  else show_Z (Qnum r) ++ "/" ++ show_Z (Zpos (Qden r)).

(** Stand-ins for the three built-ins. *)
Definition example_builtins : Builtins :=
  {| Number_toString := show_number; Math_tan := fun x => x; Math_PI := 355 # 113 |}.

Definition four_images : UserOptions.t :=
  with_images ["a.jpg"; "b.jpg"; "c.jpg"; "d.jpg"]%string UserOptions.none.

Definition four_images_autoplay : UserOptions.t :=
  UserOptions.mk (Some ["a.jpg"; "b.jpg"; "c.jpg"; "d.jpg"]%string) (Some true) None None None
    None None None None None.

(** A primary-button pointer event at [clientX = x]; a secondary-button one. *)
Definition pointer_at (x : Q) : PointerEvent.t := PointerEvent.mk 0 x None 1.
Definition right_button_at (x : Q) : PointerEvent.t := PointerEvent.mk 2 x None 1.

Definition example_gallery : World :=
  new_RollingGallery (builtins := example_builtins) four_images 1024.

Definition example_autoplay_gallery : World :=
  new_RollingGallery (builtins := example_builtins) four_images_autoplay 1024.

(** Pointer down at 100. *)
Definition example_drag_started : World :=
  fire (builtins := example_builtins) (Dispatched pointerdown (pointer_at 100) 0) example_gallery.

(** Dragged 8000 pixels to the right, then held still: the rotation is 400
    degrees and the velocity 0. *)
Definition example_dragged_far : World :=
  run (builtins := example_builtins)
    [Dispatched pointermove (pointer_at 8100) 10; Dispatched pointermove (pointer_at 8100) 20]
    example_drag_started.

(** Dragged 10 pixels in 10 ms: the velocity is 50 degrees a frame. *)
Definition example_dragged_fast : World :=
  fire (builtins := example_builtins) (Dispatched pointermove (pointer_at 110) 10)
    example_drag_started.

(** Released at that speed: the first animation frame is pending. *)
Definition example_flick : World :=
  fire (builtins := example_builtins) (Dispatched pointerup (pointer_at 110) 12)
    example_dragged_fast.

(** Dragged 21 pixels in 10 s and released: a flick at 0.105 degrees a
    frame, which its first frame ends. *)
Definition example_slow_flick : World :=
  run (builtins := example_builtins)
    [Dispatched pointermove (pointer_at 121) 10000; Dispatched pointerup (pointer_at 121) 10001]
    example_drag_started.

(** ** Vocabulary of the further properties *)

(** The track shows one item per image, laid out for the current breakpoint. *)
Definition track_shows_images {builtins : Builtins} (w : World) : Prop :=
  exists k, galleryTrack (this w) = Some k /\
            Track.items k = Track.items (rendered_track (this w) k) /\
            Style.width (Track.style k) = Style.width (Track.style (rendered_track (this w) k)).

(** With autoplay off no interval is ever started. *)
Definition autoplay_off_idle (w : World) : Prop :=
  Options.autoplay (options (this w)) = false -> autoplayIntervalId (this w) = None.

(** The listeners [attachEventListeners] registers for the given options. *)
Definition attached_listeners (o : Options.t) : list (EventTarget * EventType * Listener) :=
  [(the_window, resize, throttled_resize);
   (the_track, pointerdown, bound_handlePointerDown);
   (the_document, pointermove, bound_handlePointerMove);
   (the_document, pointerup, bound_handlePointerUp);
   (the_document, pointercancel, bound_handlePointerUp)]
  ++ (if Options.autoplay o && Options.pauseOnHover o
      then [(the_track, mouseenter, bound_handleMouseEnter);
            (the_track, mouseleave, bound_handleMouseLeave)]
      else []).

(** What a drag, a flick and the autoplay act on. *)
Definition motion {builtins : Builtins} (w : World) :=
  (rotationDegrees (this w), currentVelocity (this w), isDragging (this w),
   startX (this w), startRotation (this w), animationFrameId (this w), frames w,
   option_map (fun k => Style.transform (Track.style k)) (galleryTrack (this w))).

(** The events that come from neither the pointer nor an animation frame
    nor the autoplay interval. *)
Definition passive (ev : Event) : bool :=
  match ev with
  | WindowResized _ => true
  | Dispatched resize _ _ | Dispatched mouseenter _ _ | Dispatched mouseleave _ _ => true
  | TimeoutFires _ => true
  | _ => false
  end.

(** [e.clientX || e.touches[0].clientX] has a value: [clientX] is not 0, or
    there is a first touch. *)
Definition has_position (e : PointerEvent.t) : bool :=
  truthy (PointerEvent.clientX e)
  || match PointerEvent.touches e with Some (_ :: _) => true | _ => false end.

(** The events whose listeners read the pointer position do find one. *)
Definition position_readable (ev : Event) : bool :=
  match ev with
  | Dispatched pointerdown e _ | Dispatched pointermove e _ => has_position e
  | _ => true
  end.

(** A sequence of [pointermove] events, each with its time. *)
Definition pointermoves (moves : list (PointerEvent.t * Q)) : list Event :=
  map (fun m => Dispatched pointermove (fst m) (snd m)) moves.

(** The handle of a pending timeout; whether it is the throttle's. *)
Definition timeout_handle (p : handle * TimeoutCallback * Q) : handle := fst (fst p).

Definition is_throttle_release (p : handle * TimeoutCallback * Q) : bool :=
  match snd (fst p) with throttle_release => true | transition_reset => false end.

(** The pending timeouts that will end a throttle window. *)
Definition throttle_timers (w : World) : list (handle * TimeoutCallback * Q) :=
  filter is_throttle_release (timeouts w).

(** Pending timeouts have distinct handles, all handed out already. *)
Definition handles_ok (w : World) : Prop :=
  Forall (fun p => (timeout_handle p < nextHandle w)%positive) (timeouts w) /\
  NoDup (map timeout_handle (timeouts w)).

(** The throttle of the resize listener: inside a window exactly one timer of
    100 ms is pending and a trailing call is due; outside, none is pending
    and [isScreenSizeSm] is the one of the current window width. *)
Definition throttle_ok (w : World) : Prop :=
  handles_ok w /\
  if inThrottle (throttle_state w) then
    lastArgs (throttle_state w) = true /\
    exists id, throttle_timers w = [(id, throttle_release, 100)]
  else
    throttle_timers w = [] /\
    isScreenSizeSm (this w) = Qle_bool (innerWidth w) (Options.smBreakpoint (options (this w))).

(** Further example worlds. *)
(** Four images, autoplay and [pauseOnHover]. *)
Definition four_images_hover : UserOptions.t :=
  UserOptions.mk (Some ["a.jpg"; "b.jpg"; "c.jpg"; "d.jpg"]%string) (Some true) (Some true) None
    None None None None None None.

Definition example_hover_gallery : World :=
  new_RollingGallery (builtins := example_builtins) four_images_hover 1024.

(** Pointer down at 100 on the autoplaying gallery: the autoplay is stopped. *)
Definition example_autoplay_drag : World :=
  fire (builtins := example_builtins) (Dispatched pointerdown (pointer_at 100) 0)
    example_autoplay_gallery.

(** The window is made 500 wide: the layout is the small one and a throttle
    window is open. *)
Definition example_resized : World :=
  fire (builtins := example_builtins) (WindowResized 500) example_gallery.

(** Within the throttle window the window is made 1024 wide again. *)
Definition example_resized_back : World :=
  fire (builtins := example_builtins) (WindowResized 1024) example_resized.

(** The throttle window of the resize to 500 is over. *)
Definition example_narrow : World :=
  fire (builtins := example_builtins) (TimeoutFires 1%positive) example_resized.

(** ** Arithmetic *)

(** No integer is nearer to [y] than [Math.round(y)]. *)
Lemma Math_round_nearest (y : Q) (j : Z) :
  Qabs (inject_Z (Math_round y) - y) <= Qabs (inject_Z j - y).
Proof.
  unfold Math_round.
  pose proof (Qfloor_le (y + (1 # 2))) as Hlo.
  pose proof (Qlt_floor (y + (1 # 2))) as Hhi.
  set (r := Qfloor (y + (1 # 2))) in *.
  rewrite inject_Z_plus in Hhi. change (inject_Z 1) with 1 in Hhi.
  destruct (Z_lt_le_dec j r) as [Hj | Hj].
  - assert (inject_Z j <= inject_Z r - 1).
    { assert (j <= r - 1)%Z as H by lia. rewrite Zle_Qle in H.
      unfold Z.sub in H. rewrite inject_Z_plus in H. exact H. }
    change (inject_Z (-1)) with (-1 # 1) in H.
    apply Qabs_case; intros; apply Qabs_case; intros; lra.
  - destruct (Z.eq_dec j r) as [-> | Hne]; [apply Qle_refl|].
    assert (inject_Z r + 1 <= inject_Z j).
    { assert (r + 1 <= j)%Z as H by lia. rewrite Zle_Qle in H.
      rewrite inject_Z_plus in H. exact H. }
    change (inject_Z 1) with 1 in H.
    apply Qabs_case; intros; apply Qabs_case; intros; lra.
Qed.

(** [Qgtb] decides [>]. *)
Lemma Qgtb_true x y : Qgtb x y = true <-> y < x.
Proof.
  unfold Qgtb. rewrite negb_true_iff. split; intros H.
  - apply Qnot_le_lt. intros Hle. apply Qle_bool_iff in Hle. congruence.
  - destruct (Qle_bool x y) eqn:E; [|reflexivity].
    apply Qle_bool_iff in E. exfalso. apply (Qlt_not_le _ _ H E).
Qed.

Lemma Qgtb_false x y : Qgtb x y = false <-> x <= y.
Proof. unfold Qgtb. rewrite negb_false_iff. apply Qle_bool_iff. Qed.

Lemma length_number_pos {A} (xs : list A) : xs <> [] -> 0 < length_number xs.
Proof.
  destruct xs as [|x xs]; [congruence|]. intros _. unfold length_number.
  change 0 with (inject_Z 0). rewrite <- Zlt_Qlt. cbn [List.length]. lia.
Qed.

(** ** Loops that repeat one operation *)

Lemma repeatedly_shift {A} (op : A -> A -> A) (x y : A) (n : nat) :
  repeatedly op (op x y) y n = repeatedly op x y (S n).
Proof. induction n as [|n IH]; [reflexivity|]. cbn [repeatedly] in *. now rewrite IH. Qed.


(** ** Binary64 *)

#[local] Set Warnings "-inexact-float,-abstract-large-number".




(** With the default threshold 0.1 the same flick is above it for 74 frames
    and at or below it after the 75th, in binary64 as in exact
    arithmetic. *)
Lemma binary64_default_flick_ends :
  stays_above 0.1 0.92 50 75 = true /\
  (0.1 <? abs (repeatedly PrimFloat.mul 50 0.92 75))%float = false.
Proof. split; vm_compute; reflexivity. Qed.

(** Seven ticks of an autoplaying gallery of seven images (line 197, from
    rotation 0) leave [-360.00000000000006], beyond the full turn that the
    seven subtractions make in exact arithmetic. *)
Lemma binary64_ticks_overshoot :
  repeatedly PrimFloat.sub 0%float (360 / 7)%float 7 = (-360.00000000000006)%float /\
  (repeatedly PrimFloat.sub 0 (360 / 7) 7 <? - 360)%float = true /\
  repeatedly Qminus 0 (360 / 7) 7 == - 360.
Proof. repeat split; vm_compute; reflexivity. Qed.

(** With seven images and [rotationDegrees = -25.714285714285715] (the
    double [-7237927972559726 * 2^-48]) the quotient of line 257 is exactly
    [-0.5] in binary64, which [Math.round] takes to [-0]: the snap goes to
    face 0.  In exact arithmetic the quotient of that rotation by [360 / 7]
    is below [-0.5] and rounds to [-1], the face that is nearer. *)
Lemma binary64_quotient_ties :
  (-25.714285714285715 / (360 / 7))%float = (-0.5)%float /\
  Prim2SF (-25.714285714285715)%float = S754_finite true 7237927972559726 (-48) /\
  Math_round (- (7237927972559726 # 281474976710656) / (360 / 7)) = (-1)%Z /\
  Math_round (- (1 # 2)) = 0%Z.
Proof. repeat split; vm_compute; reflexivity. Qed.

(** ** Symbolic execution *)

Lemma wp_bind {A B} (m : M A) (k : A -> M B) Q E w :
  wp m (fun a w' => wp (k a) Q E w') E w -> wp (bind m k) Q E w.
Proof. unfold wp, bind. destruct (m w) as [[a|err] w']; auto. Qed.

Lemma wp_settle (m : M unit) (P : World -> Prop) w :
  wp m (fun _ w' => P w') (fun err w' => P (set_uncaught (uncaught w' ++ [err]) w')) w ->
  P (settle m w).
Proof. unfold wp, settle. destruct (m w) as [[a|err] w']; auto. Qed.

Lemma wp_ret {A} (a : A) Q E w : Q a w -> wp (ret a) Q E w.
Proof. exact (fun H => H). Qed.

Lemma wp_throw {A} err (Q : A -> World -> Prop) E w : E err w -> wp (throw err) Q E w.
Proof. exact (fun H => H). Qed.

Lemma wp_modify f Q E w : Q tt (f w) -> wp (modify f) Q E w.
Proof. exact (fun H => H). Qed.

Lemma wp_this_object Q E w : Q (this w) w -> wp this_object Q E w.
Proof. exact (fun H => H). Qed.

Lemma wp_world Q E w : Q w w -> wp world Q E w.
Proof. exact (fun H => H). Qed.

Lemma wp_window_innerWidth Q E w : Q (innerWidth w) w -> wp window_innerWidth Q E w.
Proof. exact (fun H => H). Qed.

Lemma wp_setInterval period Q E w :
  Q (nextHandle w)
    (set_nextHandle (Pos.succ (nextHandle w))
       (set_intervals (intervals w ++ [(nextHandle w, period)]) w)) ->
  wp (setInterval period) Q E w.
Proof. exact (fun H => H). Qed.

Lemma wp_requestAnimationFrame Q E w :
  Q (nextHandle w)
    (set_nextHandle (Pos.succ (nextHandle w)) (set_frames (frames w ++ [nextHandle w]) w)) ->
  wp requestAnimationFrame Q E w.
Proof. exact (fun H => H). Qed.

Lemma wp_setTimeout callback delay Q E w :
  Q (nextHandle w)
    (set_nextHandle (Pos.succ (nextHandle w))
       (set_timeouts (timeouts w ++ [(nextHandle w, callback, delay)]) w)) ->
  wp (setTimeout callback delay) Q E w.
Proof. exact (fun H => H). Qed.


(** *** [renderGalleryItems] in closed form *)

Section Rendering.

Context {builtins : Builtins}.

Lemma forEach_items radius xs : forall index w k,
  galleryTrack (this w) = Some k ->
  forEach (fun imageUrl index =>
    g <- this_object ;;
    let angle := (360 / length_number (images g)) * inject_Z (Z.of_nat index) in
    let item := Item.mk "gallery-item" "gallery-img" imageUrl
                  ("Gallery image " ++ Number_toString (inject_Z (Z.of_nat index) + 1))
                  "lazy"
                  (item_transform angle radius (Options.gapFactor (options g))) in
    k <- elements_galleryTrack ;;
    put_track (Track.set_items (Track.items k ++ [item]) k)) xs index w =
  (Normal tt,
   set_this (set_galleryTrack
     (Some (Track.set_items
        (Track.items k ++
         gallery_items (length_number (images (this w))) radius
           (Options.gapFactor (options (this w))) xs index) k)) (this w)) w).
Proof.
  induction xs as [|x xs IH]; intros index w k Hk.
  - cbn. unfold ret. rewrite app_nil_r. destruct w as [g ? ? ? ? ? ? ? ? ? ?]; destruct g, k.
    cbn in Hk. subst. reflexivity.
  - cbn [forEach]. unfold bind at 1. unfold bind at 1. unfold this_object at 1.
    unfold bind at 1. unfold elements_galleryTrack at 1. unfold bind at 1. unfold this_object at 1.
    rewrite Hk. unfold ret at 1. unfold put_track at 1, assign at 1, modify at 1.
    erewrite IH by reflexivity.
    destruct w as [g ? ? ? ? ? ? ? ? ? ?]; destruct g, k. cbn in *.
    rewrite <- app_assoc. reflexivity.
Qed.

Lemma renderGalleryItems_eq w :
  renderGalleryItems w =
  match galleryTrack (this w) with
  | Some k => (Normal tt, set_this (set_galleryTrack (Some (rendered_track (this w) k)) (this w)) w)
  | None => (Throw "TypeError: Cannot read properties of undefined", w)
  end.
Proof.
  unfold renderGalleryItems.
  unfold bind at 1. unfold elements_galleryTrack at 1, bind at 1, this_object at 1.
  destruct (galleryTrack (this w)) as [k|] eqn:Hk; [|reflexivity].
  unfold ret at 1. unfold bind at 1. unfold put_track at 1, assign at 1, modify at 1.
  unfold bind at 1. unfold this_object at 1.
  unfold bind at 1. unfold track_style at 1, bind at 1, elements_galleryTrack at 1, bind at 1, this_object at 1.
  cbn [this set_this galleryTrack set_galleryTrack]. unfold ret at 1.
  unfold put_track at 1, assign at 1, modify at 1.
  erewrite forEach_items by reflexivity.
  destruct w as [g ? ? ? ? ? ? ? ? ? ?]; destruct g, k. cbn in *. reflexivity.
Qed.

Lemma wp_renderGalleryItems Q E w :
  match galleryTrack (this w) with
  | Some k => Q tt (set_this (set_galleryTrack (Some (rendered_track (this w) k)) (this w)) w)
  | None => E "TypeError: Cannot read properties of undefined"%string w
  end ->
  wp renderGalleryItems Q E w.
Proof.
  unfold wp. rewrite renderGalleryItems_eq. destruct (galleryTrack (this w)); auto.
Qed.

End Rendering.

(** *** Tactics *)

(** Projections and setters applied to explicit records. *)
Ltac simp :=
  cbn [this innerWidth container_has_track throttle_state listeners intervals frames timeouts
       nextHandle console uncaught set_this set_innerWidth set_container_has_track
       set_throttle_state set_listeners set_intervals set_frames set_timeouts set_nextHandle
       set_console set_uncaught
       options images isScreenSizeSm rotationDegrees autoplayIntervalId animationFrameId
       isDragging startX startRotation lastMoveX lastMoveTime currentVelocity galleryTrack
       set_options set_images set_isScreenSizeSm set_rotationDegrees set_autoplayIntervalId
       set_animationFrameId set_isDragging set_startX set_startRotation set_lastMoveX
       set_lastMoveTime set_currentVelocity set_galleryTrack
       Options.images Options.autoplay Options.pauseOnHover Options.smBreakpoint
       Options.autoplayIntervalMs Options.autoplayRotationDuration Options.dragFactor
       Options.flickDecay Options.flickMinVelocity Options.gapFactor
       Track.style Track.items Track.pointerCapture Track.set_style Track.set_items
       Track.set_pointerCapture
       Style.transform Style.transition Style.cursor Style.width Style.set_transform
       Style.set_transition Style.set_cursor Style.set_width
       inThrottle lastArgs fst snd negb andb merge_options default
       UserOptions.images UserOptions.autoplay UserOptions.pauseOnHover UserOptions.smBreakpoint
       UserOptions.autoplayIntervalMs UserOptions.autoplayRotationDuration
       UserOptions.dragFactor UserOptions.flickDecay UserOptions.flickMinVelocity
       UserOptions.gapFactor PointerEvent.button PointerEvent.clientX PointerEvent.touches
       PointerEvent.pointerId Touch.clientX] in *.

Ltac head_of t := lazymatch t with ?f _ => head_of f | _ => t end.

(** One statement of the computation under [wp]: a monad operation by its
    rule, a branch by cases (or by the equation already known for its
    condition), a method by unfolding. *)
Ltac wp_step :=
  lazymatch goal with
  | |- wp (bind _ _) _ _ _ => apply wp_bind
  | |- wp (ret _) _ _ _ => apply wp_ret
  | |- wp (throw _) _ _ _ => apply wp_throw
  | |- wp (modify _) _ _ _ => apply wp_modify
  | |- wp this_object _ _ _ => apply wp_this_object
  | |- wp world _ _ _ => apply wp_world
  | |- wp window_innerWidth _ _ _ => apply wp_window_innerWidth
  | |- wp (setInterval _) _ _ _ => apply wp_setInterval
  | |- wp requestAnimationFrame _ _ _ => apply wp_requestAnimationFrame
  | |- wp (setTimeout _ _) _ _ _ => apply wp_setTimeout
  | |- wp (if ?b then _ else _) _ _ _ =>
      first [ match goal with H : b = _ |- _ => rewrite H end | destruct b eqn:? ]
  | |- wp (match ?x with _ => _ end) _ _ _ =>
      first [ match goal with H : x = _ |- _ => rewrite H end | destruct x eqn:? ]
  | |- wp renderGalleryItems _ _ _ => apply wp_renderGalleryItems
  | |- match ?x with _ => _ end => destruct x eqn:?
  | |- wp (forEach _ _ _) _ _ _ => fail
  | |- wp ?m _ _ _ => let h := head_of m in unfold h
  end.

Ltac wp_run := repeat (wp_step; cbv beta; simp).

Ltac break_world w :=
  let g := fresh "g" in let o := fresh "o" in
  destruct w as [g ? ? ? ? ? ? ? ? ? ?]; destruct g as [o ? ? ? ? ? ? ? ? ? ? ? ?]; destruct o.

Ltac inv_hyps :=
  repeat match goal with
         | H : _ /\ _ |- _ => destruct H
         | H : exists _, _ |- _ => destruct H
         | H : _ \/ _ |- _ => destruct H
         | H : Some _ = Some _ |- _ => injection H as H
         | H : match ?x with _ => _ end |- _ => destruct x eqn:?
         | _ => progress subst
         | _ => discriminate
         end.

(** Closes an instance of [Inv] on an explicit world. *)
Ltac inv_goal :=
  unfold Inv, track_shows_rotation, one_interval, one_frame, handle_is, rendered_track in *; simp;
  inv_hyps; simp; cbn [filter app]; rewrite ?Pos.eqb_refl in *; simp; cbn [filter app negb];
  repeat match goal with |- _ /\ _ => split end;
  try solve [ reflexivity | assumption
            | eexists; split; [reflexivity | simp; first [assumption | reflexivity]]
            | left; reflexivity
            | right; eexists; split; reflexivity ].

Ltac exec w := break_world w; apply wp_settle; wp_run.

Ltac settle_left :=
  match goal with
  | |- ?f (settle ?m ?W) = ?r => apply (wp_settle m (fun w' => f w' = r))
  end.

Ltac settle_right :=
  match goal with
  | |- ?l = settle ?m ?W => apply (wp_settle m (fun w' => l = w'))
  end.

Ltac fixed_proof w := break_world w; settle_left; wp_run; reflexivity.

(** Runs both sides of a commutation with [forget_input]. *)
Ltac forget_proof w :=
  break_world w; settle_left; wp_run; unfold forget_input; simp;
  settle_right; wp_run; first [reflexivity | congruence].

(** Runs the listener under the goal, whatever the goal says of its result. *)
Ltac settle_at :=
  match goal with
  | |- context [settle ?m ?W] => pattern (settle m W); apply wp_settle
  end.

(** ** Properties *)

Section Properties.

Context {builtins : Builtins}.

(** *** Every listener and callback keeps the invariant *)

Lemma Inv_handlePointerUp e w : Inv w -> Inv (settle (handlePointerUp e) w).
Proof. intros H. exec w; inv_goal. Qed.

Lemma Inv_handlePointerDown now e w : Inv w -> Inv (settle (handlePointerDown now e) w).
Proof. intros H. exec w; inv_goal. Qed.

Lemma Inv_handlePointerMove now e w : Inv w -> Inv (settle (handlePointerMove now e) w).
Proof. intros H. exec w; inv_goal. Qed.

Lemma Inv_handleMouseEnter w : Inv w -> Inv (settle handleMouseEnter w).
Proof. intros H. exec w; inv_goal. Qed.

Lemma Inv_handleMouseLeave w : Inv w -> Inv (settle handleMouseLeave w).
Proof. intros H. exec w; inv_goal. Qed.

Lemma Inv_snap_timeout w : Inv w -> Inv (settle snap_timeout w).
Proof. intros H. exec w; inv_goal. Qed.

Lemma Inv_autoplay_tick w : Inv w -> Inv (settle autoplay_tick w).
Proof. intros H. exec w; inv_goal. Qed.

Lemma Inv_animate w : Inv w -> Inv (settle animate (set_frames [] w)).
Proof. intros H. exec w; inv_goal. Qed.

Lemma Inv_throttled_resize w : Inv w -> Inv (settle (throttled handleResize 100) w).
Proof. intros H. exec w; inv_goal. Qed.

Lemma Inv_throttle_timeout w : Inv w -> Inv (settle (throttle_timeout handleResize) w).
Proof. intros H. exec w; inv_goal. Qed.

Lemma Inv_new o width : Inv (new_RollingGallery o width).
Proof.
  unfold new_RollingGallery, fresh_page, blank_gallery. destruct o.
  apply wp_settle; wp_run; inv_goal.
Qed.

(** *** None writes the options, the images or the listeners *)

Lemma fixed_listener l e now w : fixed (settle (run_listener l e now) w) = fixed w.
Proof. destruct l; fixed_proof w. Qed.

Lemma fixed_timeout cb w : fixed (settle (run_timeout cb) w) = fixed w.
Proof. destruct cb; fixed_proof w. Qed.

Lemma fixed_autoplay_tick w : fixed (settle autoplay_tick w) = fixed w.
Proof. fixed_proof w. Qed.

Lemma fixed_animate w : fixed (settle animate w) = fixed w.
Proof. fixed_proof w. Qed.

(** *** None reads [options.images] or the console *)

Lemma forget_listener l e now w :
  forget_input (settle (run_listener l e now) w) = settle (run_listener l e now) (forget_input w).
Proof. destruct l; forget_proof w. Qed.

Lemma forget_timeout cb w :
  forget_input (settle (run_timeout cb) w) = settle (run_timeout cb) (forget_input w).
Proof. destruct cb; forget_proof w. Qed.

Lemma forget_autoplay_tick w :
  forget_input (settle autoplay_tick w) = settle autoplay_tick (forget_input w).
Proof. forget_proof w. Qed.

Lemma forget_animate w :
  forget_input (settle animate w) = settle animate (forget_input w).
Proof. forget_proof w. Qed.

(** *** The event loop *)

Lemma Inv_listener l e now w : Inv w -> Inv (settle (run_listener l e now) w).
Proof.
  destruct l; cbn [run_listener];
    auto using Inv_throttled_resize, Inv_handlePointerDown, Inv_handlePointerMove,
      Inv_handlePointerUp, Inv_handleMouseEnter, Inv_handleMouseLeave.
Qed.

Lemma Inv_timeout cb w : Inv w -> Inv (settle (run_timeout cb) w).
Proof. destruct cb; cbn [run_timeout]; auto using Inv_throttle_timeout, Inv_snap_timeout. Qed.

(** A property every listener keeps is kept by a whole dispatch. *)
Lemma dispatch_keeps (P : World -> Prop) (f : Listener -> M unit) ls :
  (forall l w, P w -> P (settle (f l) w)) ->
  forall w, P w -> P (fold_left (fun w l => settle (f l) w) ls w).
Proof.
  intros Hf. induction ls as [|l ls IH]; intros w Hw; cbn [fold_left]; auto.
Qed.

Lemma pending_frame w id :
  one_frame w -> existsb (Pos.eqb id) (frames w) = true ->
  filter (fun h => negb (Pos.eqb h id)) (frames w) = [].
Proof.
  intros [H | [id' [H _]]]; rewrite H; cbn; [discriminate|].
  rewrite orb_false_r. intros E. apply Pos.eqb_eq in E. subst id'.
  rewrite Pos.eqb_refl. reflexivity.
Qed.

Lemma Inv_fire ev w : Inv w -> Inv (fire ev w).
Proof.
  intros H. destruct ev as [width | type e now | id | id | id]; cbn [fire].
  - apply dispatch_keeps; [intros; now apply Inv_listener | exact H].
  - apply dispatch_keeps; [intros; now apply Inv_listener | exact H].
  - destruct (existsb _ _); [now apply Inv_autoplay_tick | exact H].
  - destruct (existsb _ _) eqn:E; [| exact H].
    rewrite (pending_frame w id) by (apply H || exact E).
    now apply Inv_animate.
  - destruct (find _ _) as [[[? cb] ?]|]; [| exact H].
    apply Inv_timeout. exact H.
Qed.

Lemma reachable_Inv w : reachable w -> Inv w.
Proof. induction 1; [apply Inv_new | now apply Inv_fire]. Qed.

Lemma fixed_fire ev w : fixed (fire ev w) = fixed w.
Proof.
  destruct ev as [width | type e now | id | id | id]; cbn [fire].
  - change (fixed w) with (fixed (set_innerWidth width w)).
    generalize (set_innerWidth width w) at 2 3 as w0. 
    generalize (listeners_for resize (set_innerWidth width w)) as ls.
    induction ls as [|l ls IH]; intros w0; cbn [fold_left]; [reflexivity|].
    rewrite IH. apply fixed_listener.
  - generalize (listeners_for type w) as ls. revert w.
    intros w ls; revert w.
    induction ls as [|l ls IH]; intros w; cbn [fold_left]; [reflexivity|].
    rewrite IH. apply fixed_listener.
  - destruct (existsb _ _); [apply fixed_autoplay_tick | reflexivity].
  - destruct (existsb _ _); [| reflexivity]. now rewrite fixed_animate.
  - destruct (find _ _) as [[[? cb] ?]|]; [| reflexivity]. now rewrite fixed_timeout.
Qed.

Lemma fixed_run trace : forall w, fixed (run trace w) = fixed w.
Proof.
  induction trace as [|ev trace IH]; intros w; [reflexivity|].
  unfold run in *. cbn [fold_left]. rewrite IH. apply fixed_fire.
Qed.

Lemma forget_dispatch e now ls : forall w,
  forget_input (fold_left (fun w l => settle (run_listener l e now) w) ls w) =
  fold_left (fun w l => settle (run_listener l e now) w) ls (forget_input w).
Proof.
  induction ls as [|l ls IH]; intros w; cbn [fold_left]; [reflexivity|].
  rewrite IH. now rewrite forget_listener.
Qed.

Lemma forget_fire ev w : forget_input (fire ev w) = fire ev (forget_input w).
Proof.
  destruct ev as [width | type e now | id | id | id]; cbn [fire].
  - rewrite forget_dispatch. reflexivity.
  - rewrite forget_dispatch. reflexivity.
  - change (intervals (forget_input w)) with (intervals w).
    destruct (existsb _ _); [apply forget_autoplay_tick | reflexivity].
  - change (frames (forget_input w)) with (frames w).
    destruct (existsb _ _); [| reflexivity]. now rewrite forget_animate.
  - change (timeouts (forget_input w)) with (timeouts w).
    destruct (find _ _) as [[[? cb] ?]|]; [| reflexivity]. now rewrite forget_timeout.
Qed.

Lemma forget_run trace : forall w, forget_input (run trace w) = run trace (forget_input w).
Proof.
  induction trace as [|ev trace IH]; intros w; [reflexivity|].
  unfold run in *. cbn [fold_left]. rewrite IH. now rewrite forget_fire.
Qed.

(** *** What the constructor leaves *)

Lemma new_facts o width :
  let w := new_RollingGallery o width in
  images (this w) <> [] /\
  listeners_for pointerdown w = [bound_handlePointerDown] /\
  listeners_for pointermove w = [bound_handlePointerMove] /\
  listeners_for pointerup w = [bound_handlePointerUp] /\
  listeners_for pointercancel w = [bound_handlePointerUp].
Proof.
  unfold new_RollingGallery, fresh_page, blank_gallery. destruct o. cbv zeta.
  settle_at; wp_run; unfold listeners_for; simp; cbn;
    repeat split; try reflexivity; try discriminate.
  all: intros E; rewrite E in *; discriminate.
Qed.

Lemma reachable_fixed w :
  reachable w -> exists o width, fixed w = fixed (new_RollingGallery o width).
Proof.
  induction 1 as [o width | ev w _ [o [width IH]]].
  - now exists o, width.
  - exists o, width. now rewrite fixed_fire.
Qed.

Lemma reachable_facts w :
  reachable w ->
  images (this w) <> [] /\
  listeners_for pointerdown w = [bound_handlePointerDown] /\
  listeners_for pointermove w = [bound_handlePointerMove] /\
  listeners_for pointerup w = [bound_handlePointerUp] /\
  listeners_for pointercancel w = [bound_handlePointerUp].
Proof.
  intros H. destruct (reachable_fixed w H) as [o [width E]].
  pose proof (new_facts o width) as F. cbv zeta in F.
  unfold fixed in E. injection E as E1 E2 E3.
  unfold listeners_for in *. rewrite E2, E3. exact F.
Qed.

Lemma fire_options ev w : options (this (fire ev w)) = options (this w).
Proof. pose proof (fixed_fire ev w) as E. unfold fixed in E. now injection E. Qed.

Lemma fire_images ev w : images (this (fire ev w)) = images (this w).
Proof. pose proof (fixed_fire ev w) as E. unfold fixed in E. now injection E. Qed.

Lemma reachable_run trace : forall w, reachable w -> reachable (run trace w).
Proof.
  induction trace as [|ev trace IH]; intros w R; [exact R|].
  apply IH. now apply reachable_fire.
Qed.

(** *** The flick, frame by frame *)

(** One frame of the flick, once the browser has taken it off its list. *)
Lemma animate_step w :
  Inv w ->
  let g := this w in
  let velocity := currentVelocity g * Options.flickDecay (options g) in
  let w' := settle animate (set_frames [] w) in
  currentVelocity (this w') = velocity /\
  if Qgtb (Math_abs velocity) (Options.flickMinVelocity (options g)) then
    rotationDegrees (this w') = rotationDegrees g + currentVelocity g /\
    frames w' = [nextHandle w] /\ animationFrameId (this w') = Some (nextHandle w)
  else
    rotationDegrees (this w') =
      targetRotation (length_number (images g)) (rotationDegrees g + currentVelocity g) /\
    frames w' = [].
Proof.
  intros H. cbv zeta. break_world w. settle_at. wp_run.
  all: unfold Inv, track_shows_rotation in H; simp; inv_hyps.
  all: repeat match goal with H : _ = _ |- _ => rewrite H end; auto.
Qed.

Lemma fire_frame w id :
  Inv w -> In id (frames w) ->
  fire (AnimationFrameFires id) w = settle animate (set_frames [] w).
Proof.
  intros H Hin. cbn [fire].
  assert (E : existsb (Pos.eqb id) (frames w) = true).
  { apply existsb_exists. exists id. split; [exact Hin | apply Pos.eqb_refl]. }
  rewrite E, (pending_frame w id) by (apply H || exact E). reflexivity.
Qed.

(** What the release of a drag does. *)
Lemma handlePointerUp_result e w :
  Inv w -> isDragging (this w) = true ->
  let g := this w in
  let w' := settle (handlePointerUp e) w in
  currentVelocity (this w') = currentVelocity g /\
  if Qgtb (Math_abs (currentVelocity g)) (Options.flickMinVelocity (options g)) then
    frames w' = [nextHandle w] /\ rotationDegrees (this w') = rotationDegrees g
  else
    rotationDegrees (this w') = targetRotation (length_number (images g)) (rotationDegrees g).
Proof.
  intros H Hd. cbv zeta. break_world w. simp. subst. settle_at. wp_run.
  all: unfold Inv, track_shows_rotation, one_frame in H; simp; inv_hyps.
  all: repeat match goal with H : _ = _ |- _ => rewrite H end; auto.
  all: cbn [filter]; rewrite ?Pos.eqb_refl; auto.
Qed.

Lemma fire_pointerup e now w :
  reachable w -> fire (Dispatched pointerup e now) w = settle (handlePointerUp e) w.
Proof.
  intros R. destruct (reachable_facts w R) as (_ & _ & _ & Lu & _).
  cbn [fire]. rewrite Lu. reflexivity.
Qed.




(** ** The claims *)

(** C1, as amended.  When the pointer is released with
    [|currentVelocity| <= flickMinVelocity], and when a flick frame ends the
    flick ([|currentVelocity|] after the decay [<= flickMinVelocity]),
    [snapToNearestFace] leaves [rotationDegrees] at
    [nearestFaceIndex * (360 / images.length)], where [nearestFaceIndex] is
    an integer nearest to the quotient
    [(rotationDegrees % 360) / (360 / images.length)] of the rotation it
    found (for the flick: the rotation after the frame's increment).  The
    rotation is reduced by JavaScript's remainder first, so beyond a full
    turn the face is not the one nearest to the rotation itself; and the
    quotient and the product are the ones the code computes, so the face is
    the nearest up to their rounding ([binary64_quotient_ties]). *)
Theorem snap_goes_to_the_face_nearest_the_quotient
  (w : World) (e : PointerEvent.t) (now : Q) :
  reachable w ->
  let g := this w in
  let face := 360 / length_number (images g) in
  (isDragging g = true ->
   Math_abs (currentVelocity g) <= Options.flickMinVelocity (options g) ->
   exists nearestFaceIndex : Z,
     rotationDegrees (this (fire (Dispatched pointerup e now) w))
       = inject_Z nearestFaceIndex * face /\
     nearest_integer (js_rem (rotationDegrees g) 360 / face) nearestFaceIndex) /\
  (forall id, In id (frames w) ->
   Math_abs (currentVelocity g * Options.flickDecay (options g))
     <= Options.flickMinVelocity (options g) ->
   exists nearestFaceIndex : Z,
     rotationDegrees (this (fire (AnimationFrameFires id) w))
       = inject_Z nearestFaceIndex * face /\
     nearest_integer (js_rem (rotationDegrees g + currentVelocity g) 360 / face)
       nearestFaceIndex).
Proof.
  intros R g face.
  pose proof (reachable_Inv w R) as HI.
  split.
  - intros Hd Hv. rewrite (fire_pointerup e now w R).
    destruct (handlePointerUp_result e w HI Hd) as [_ H]. fold g in H.
    apply Qgtb_false in Hv. rewrite Hv in H. rewrite H.
    eexists. split; [reflexivity|]. intros j. apply Math_round_nearest.
  - intros id Hin Hv. rewrite (fire_frame w id HI Hin).
    destruct (animate_step w HI) as [_ H]. fold g in H.
    apply Qgtb_false in Hv. rewrite Hv in H. destruct H as [H _]. rewrite H.
    eexists. split; [reflexivity|]. intros j. apply Math_round_nearest.
Qed.

(** C2, at the input where the code fails it.  During a drag, a pointer-move
    event at [clientX = 0] (a [PointerEvent], so without [touches]) makes
    [e.clientX || e.touches[0].clientX] read [touches[0]] of [undefined]: the
    handler throws a TypeError before it assigns [rotationDegrees], and the
    rotation stays what it was instead of becoming
    [startRotation + (0 - startX) * dragFactor]. *)
Theorem pointermove_at_clientX_zero_throws (w : World) (e : PointerEvent.t) (now : Q) :
  isDragging (this w) = true ->
  PointerEvent.clientX e == 0 ->
  PointerEvent.touches e = None ->
  handlePointerMove now e w =
    (Throw "TypeError: Cannot read properties of undefined (reading '0')", w) /\
  (reachable w ->
   rotationDegrees (this (fire (Dispatched pointermove e now) w)) = rotationDegrees (this w)).
Proof.
  intros Hd Hx Ht.
  assert (E : handlePointerMove now e w =
              (Throw "TypeError: Cannot read properties of undefined (reading '0')", w)).
  { unfold handlePointerMove, bind, this_object. rewrite Hd. cbn [negb].
    unfold clientX_or_touch, truthy. apply Qeq_bool_iff in Hx. rewrite Hx, Ht. reflexivity. }
  split; [exact E|]. intros R.
  destruct (reachable_facts w R) as (_ & _ & Lm & _).
  cbn [fire]. rewrite Lm. cbn [fold_left run_listener]. unfold settle. rewrite E. reflexivity.
Qed.

(** What C2 describes does hold away from [clientX = 0]: during a drag, a
    pointer-move event leaves [rotationDegrees] at
    [startRotation + (clientX - startX) * dragFactor], whatever moves came
    before. *)
Lemma drag_follows_pointer (w : World) (e : PointerEvent.t) (now : Q) :
  reachable w ->
  isDragging (this w) = true ->
  ~ PointerEvent.clientX e == 0 ->
  let g := this w in
  rotationDegrees (this (fire (Dispatched pointermove e now) w)) =
    startRotation g + (PointerEvent.clientX e - startX g) * Options.dragFactor (options g).
Proof.
  intros R Hd Hx. cbv zeta.
  destruct (reachable_facts w R) as (_ & _ & Lm & _).
  cbn [fire]. rewrite Lm. cbn [fold_left run_listener].
  assert (Ht : truthy (PointerEvent.clientX e) = true).
  { unfold truthy. destruct (Qeq_bool (PointerEvent.clientX e) 0) eqn:E; [|reflexivity].
    apply Qeq_bool_iff in E. contradiction. }
  destruct e as [button x touches pointerId]. cbn [PointerEvent.clientX] in *.
  break_world w. simp. subst. settle_at. wp_run; try reflexivity; congruence.
Qed.

(** The same [||] in [handlePointerDown]: a primary-button pointer-down at
    [clientX = 0] throws once [isDragging] is set, before [startX] and
    [startRotation] are recorded. *)
Lemma pointerdown_at_clientX_zero_throws (w : World) (e : PointerEvent.t) (now : Q) :
  PointerEvent.button e = 0%Z ->
  PointerEvent.clientX e == 0 ->
  PointerEvent.touches e = None ->
  handlePointerDown now e w =
    (Throw "TypeError: Cannot read properties of undefined (reading '0')",
     set_this (set_isDragging true (this w)) w).
Proof.
  intros Hb Hx Ht. unfold handlePointerDown. rewrite Hb, Ht. cbn [Z.eqb negb andb].
  unfold bind at 1. unfold assign at 1, modify at 1.
  unfold bind at 1. unfold clientX_or_touch, truthy.
  apply Qeq_bool_iff in Hx. rewrite Hx, Ht. reflexivity.
Qed.


(** C4.  A frame of the flick multiplies [currentVelocity] by [flickDecay];
    when the result is above [flickMinVelocity] in absolute value the frame
    has added the old velocity to [rotationDegrees] and requested exactly one
    further frame; otherwise no frame is requested and the rotation, the old
    velocity added, has been snapped. *)
Theorem flick_frame_step (w : World) (id : handle) :
  reachable w -> In id (frames w) ->
  let g := this w in
  let velocity := currentVelocity g * Options.flickDecay (options g) in
  let w' := fire (AnimationFrameFires id) w in
  currentVelocity (this w') = velocity /\
  (Options.flickMinVelocity (options g) < Math_abs velocity ->
     rotationDegrees (this w') = rotationDegrees g + currentVelocity g /\
     frames w' = [nextHandle w] /\ animationFrameId (this w') = Some (nextHandle w)) /\
  (Math_abs velocity <= Options.flickMinVelocity (options g) ->
     rotationDegrees (this w') =
       targetRotation (length_number (images g)) (rotationDegrees g + currentVelocity g) /\
     frames w' = []).
Proof.
  intros R Hin g velocity w'. subst w'.
  pose proof (reachable_Inv w R) as HI.
  rewrite (fire_frame w id HI Hin).
  destruct (animate_step w HI) as [Hv Hrest]. fold g velocity in Hv, Hrest.
  split; [exact Hv|]. split; intros Hc.
  - apply Qgtb_true in Hc. rewrite Hc in Hrest. exact Hrest.
  - apply Qgtb_false in Hc. rewrite Hc in Hrest. exact Hrest.
Qed.

(** C5.  While autoplay is on ([autoplayIntervalId] is set), the one live
    interval has period [autoplayIntervalMs], and a tick of it takes
    [360 / images.length] off [rotationDegrees] and writes the new rotation
    into the track's transform; every other field of the gallery and of the
    page is as before. *)
Theorem autoplay_tick_rotates_one_face (w : World) (id : handle) :
  reachable w ->
  autoplayIntervalId (this w) = Some id ->
  let rotation := rotationDegrees (this w) - 360 / length_number (images (this w)) in
  intervals w = [(id, Options.autoplayIntervalMs (options (this w)))] /\
  exists k, galleryTrack (this w) = Some k /\
    fire (IntervalFires id) w =
      set_this (set_galleryTrack
        (Some (Track.set_style (Style.set_transform (rotateY rotation) (Track.style k)) k))
        (set_rotationDegrees rotation (this w))) w.
Proof.
  intros R Hid rotation.
  destruct (reachable_Inv w R) as ((k & Hk & _) & Hi & _). unfold one_interval in Hi.
  rewrite Hid in Hi. split; [exact Hi|]. exists k. split; [exact Hk|].
  cbn [fire]. rewrite Hi. cbn [existsb]. unfold handle_is. cbn [fst]. rewrite Pos.eqb_refl.
  cbn [orb]. subst rotation.
  destruct w as [g ? ? ? ? ? ? ? ? ? ?]; destruct g. cbn in Hk. subst.
  reflexivity.
Qed.

(** C6.  Constructed without images (an empty [images] array, or none), the
    gallery does not fail: the constructor completes, having logged the
    warning and put the single placeholder URL in [this.images]; and from
    then on, whatever events follow, the world is the one of a gallery
    constructed with the placeholder as its only image, up to [options.images]
    (still empty) and the console log. *)
Theorem empty_image_list_falls_back (o : UserOptions.t) (width : Q) :
  default [] (UserOptions.images o) = [] ->
  let w := new_RollingGallery o width in
  fst (constructor o (fresh_page width)) = Normal tt /\
  images (this w) = [placeholder] /\
  console w = [no_images_warning] /\
  forall trace,
    forget_input (run trace w) =
    forget_input (run trace (new_RollingGallery (with_images [placeholder] o) width)).
Proof.
  intros Himg.
  assert (H : wp (constructor o)
                (fun _ w' => images (this w') = [placeholder] /\
                             console w' = [no_images_warning] /\
                             forget_input w' =
                             forget_input (new_RollingGallery (with_images [placeholder] o) width))
                (fun _ _ => False) (fresh_page width)).
  { unfold new_RollingGallery, with_images, fresh_page, blank_gallery.
    destruct o as [images autoplay pauseOnHover ? ? ? ? ? ? ?].
    destruct autoplay as [[|]|], pauseOnHover as [[|]|]; simp.
    all: assert (Hl : (List.length (default [] images) =? 0)%nat = true) by now rewrite Himg.
    all: wp_run; try discriminate.
    all: repeat split; try reflexivity.
    all: try (rewrite Himg; reflexivity).
    all: settle_at; wp_run; try discriminate; rewrite ?Himg; reflexivity. }
  unfold wp in H. cbv zeta. unfold new_RollingGallery at 1 2 3, settle.
  destruct (constructor o (fresh_page width)) as [[[]|err] w']; [|contradiction].
  destruct H as (Hi & Hc & Hf). repeat split; auto.
  intros trace. rewrite !forget_run. now rewrite Hf.
Qed.

(** C7.  [updateTransform] sets the track's [style.transform] to
    [rotateY(<rotationDegrees>deg)] and nothing else when the track exists,
    and changes nothing when it does not; and in every world the gallery can
    reach, the track exists and its transform is the one of the current
    rotation, so every update of the rotation has been applied. *)
Theorem updateTransform_applies_rotation (w : World) :
  (forall k, galleryTrack (this w) = Some k ->
     updateTransform w =
       (Normal tt,
        set_this (set_galleryTrack
          (Some (Track.set_style
                   (Style.set_transform (rotateY (rotationDegrees (this w))) (Track.style k)) k))
          (this w)) w)) /\
  (galleryTrack (this w) = None -> updateTransform w = (Normal tt, w)) /\
  (reachable w ->
     exists k, galleryTrack (this w) = Some k /\
               Style.transform (Track.style k) = rotateY (rotationDegrees (this w))).
Proof.
  split; [|split].
  - intros k Hk. unfold updateTransform, bind, this_object. rewrite Hk. reflexivity.
  - intros Hk. unfold updateTransform, bind, this_object. rewrite Hk. reflexivity.
  - intros H. apply (reachable_Inv w H).
Qed.

(** C8.  No event changes [this.images], and in every world the gallery can
    reach the list has at least one element, so [images.length], the divisor
    of [360 / images.length] in autoplay, snapping and layout and of
    [Math.PI / images.length] inside [tan], is never zero. *)
Theorem images_never_empty :
  (forall ev w, images (this (fire ev w)) = images (this w)) /\
  (forall w, reachable w ->
     (1 <= List.length (images (this w)))%nat /\
     ~ length_number (images (this w)) == 0).
Proof.
  split.
  - apply fire_images.
  - intros w R. destruct (reachable_facts w R) as (Hne & _).
    split.
    + destruct (images (this w)); [congruence | cbn; lia].
    + pose proof (length_number_pos _ Hne). lra.
Qed.

(** C9.  [startAutoplay] called while [autoplayIntervalId] is set returns at
    once and changes nothing, timers included; and in every world the gallery
    can reach there is at most one live interval. *)
Theorem startAutoplay_idempotent (w : World) :
  (forall id, autoplayIntervalId (this w) = Some id -> startAutoplay w = (Normal tt, w)) /\
  (reachable w -> (List.length (intervals w) <= 1)%nat).
Proof.
  split.
  - intros id H. unfold startAutoplay, bind, this_object. now rewrite H.
  - intros R. destruct (reachable_Inv w R) as (_ & Hi & _). unfold one_interval in Hi.
    destruct (autoplayIntervalId (this w)); rewrite Hi; cbn; lia.
Qed.

(** C10.  A pointer-down with a button other than the primary one and no
    [touches], and a pointer-move, pointer-up or pointer-cancel while
    [isDragging] is false, change nothing: the handler returns the world it
    was given (gallery fields, track, timers), and so does the dispatch of
    the event on a page the gallery has reached. *)
Theorem pointer_events_outside_drag (w : World) (e : PointerEvent.t) (now : Q) :
  (PointerEvent.button e <> 0%Z -> PointerEvent.touches e = None ->
     handlePointerDown now e w = (Normal tt, w) /\
     (reachable w -> fire (Dispatched pointerdown e now) w = w)) /\
  (isDragging (this w) = false ->
     handlePointerMove now e w = (Normal tt, w) /\
     handlePointerUp e w = (Normal tt, w) /\
     (reachable w ->
        fire (Dispatched pointermove e now) w = w /\
        fire (Dispatched pointerup e now) w = w /\
        fire (Dispatched pointercancel e now) w = w)).
Proof.
  split.
  - intros Hb Ht.
    assert (E : handlePointerDown now e w = (Normal tt, w)).
    { unfold handlePointerDown. rewrite Ht.
      destruct (Z.eqb_spec (PointerEvent.button e) 0); [contradiction | reflexivity]. }
    split; [exact E|]. intros R.
    destruct (reachable_facts w R) as (_ & Ld & _).
    cbn [fire]. rewrite Ld. cbn [fold_left run_listener]. unfold settle. now rewrite E.
  - intros Hd.
    assert (Em : handlePointerMove now e w = (Normal tt, w)).
    { unfold handlePointerMove, bind, this_object. now rewrite Hd. }
    assert (Eu : handlePointerUp e w = (Normal tt, w)).
    { unfold handlePointerUp, bind, this_object. now rewrite Hd. }
    repeat split; auto.
    all: destruct (reachable_facts w H) as (_ & _ & Lm & Lu & Lc); cbn [fire].
    + rewrite Lm. cbn [fold_left run_listener]. unfold settle. now rewrite Em.
    + rewrite Lu. cbn [fold_left run_listener]. unfold settle. now rewrite Eu.
    + rewrite Lc. cbn [fold_left run_listener]. unfold settle. now rewrite Eu.
Qed.

End Properties.

(** ** Further properties *)

(** *** Pending timeouts *)

Lemma fresh_weaken (ts : list (handle * TimeoutCallback * Q)) (n n' : handle) :
  Forall (fun p => (timeout_handle p < n)%positive) ts -> (n <= n')%positive ->
  Forall (fun p => (timeout_handle p < n')%positive) ts.
Proof. intros H Hle. eapply Forall_impl; [|exact H]. cbn. intros p Hp. lia. Qed.

Lemma fresh_snoc ts (n m n' : handle) cb d :
  Forall (fun p => (timeout_handle p < n)%positive) ts ->
  (n <= m)%positive -> (m < n')%positive ->
  Forall (fun p => (timeout_handle p < n')%positive) (ts ++ [(m, cb, d)]).
Proof.
  intros H Hnm Hmn. apply Forall_app. split.
  - apply (fresh_weaken ts n n' H). lia.
  - constructor; [exact Hmn | constructor].
Qed.

Lemma distinct_snoc ts (n m : handle) cb d :
  NoDup (map timeout_handle ts) ->
  Forall (fun p => (timeout_handle p < n)%positive) ts -> (n <= m)%positive ->
  NoDup (map timeout_handle (ts ++ [(m, cb, d)])).
Proof.
  intros Hnd Hf Hnm. rewrite map_app. cbn [map timeout_handle fst].
  apply NoDup_app.
  - exact Hnd.
  - constructor; [intros [] | constructor].
  - intros h Hin [<- | []]. apply in_map_iff in Hin. destruct Hin as [p [Hp Hin]].
    rewrite Forall_forall in Hf. specialize (Hf p Hin). lia.
Qed.

Lemma throttle_timers_snoc ts cb d (m : handle) :
  filter is_throttle_release (ts ++ [(m, cb, d)]) =
  filter is_throttle_release ts ++
  match cb with throttle_release => [(m, cb, d)] | transition_reset => [] end.
Proof. rewrite filter_app. destruct cb; reflexivity. Qed.

Lemma find_timeout (id : handle) ts p :
  find (fun p => handle_is id (fst p)) ts = Some p -> In p ts /\ timeout_handle p = id.
Proof.
  intros H. apply find_some in H. destruct H as [Hin Hh]. split; [exact Hin|].
  unfold handle_is in Hh. now apply Pos.eqb_eq in Hh.
Qed.

Lemma distinct_filter (f : handle * TimeoutCallback * Q -> bool) ts :
  NoDup (map timeout_handle ts) -> NoDup (map timeout_handle (filter f ts)).
Proof.
  induction ts as [|p ts IH]; intros H; [exact H|].
  cbn [map] in H. inversion H as [|? ? Hn Hd]; subst. cbn [filter].
  destruct (f p); [|now apply IH]. cbn [map]. constructor; [|now apply IH].
  intros Hin. apply Hn. apply in_map_iff in Hin. destruct Hin as [q [Hq Hin]].
  apply filter_In in Hin. apply in_map_iff. exists q. tauto.
Qed.

Lemma fresh_filter (f : handle * TimeoutCallback * Q -> bool) (n : handle) ts :
  Forall (fun p => (timeout_handle p < n)%positive) ts ->
  Forall (fun p => (timeout_handle p < n)%positive) (filter f ts).
Proof.
  rewrite !Forall_forall. intros H p Hin. apply filter_In in Hin. now apply H.
Qed.

Lemma distinct_handles_inj ts p q :
  NoDup (map timeout_handle ts) -> In p ts -> In q ts ->
  timeout_handle p = timeout_handle q -> p = q.
Proof.
  induction ts as [|x ts IH]; intros H Hp Hq E; [destruct Hp|].
  cbn [map] in H. inversion H as [|? ? Hn Hd]; subst.
  destruct Hp as [-> | Hp], Hq as [-> | Hq]; auto.
  - exfalso. apply Hn. rewrite E. now apply in_map.
  - exfalso. apply Hn. rewrite <- E. now apply in_map.
Qed.

Lemma filter_filter_kept {A} (a b : A -> bool) xs :
  (forall x, In x xs -> a x = true -> b x = true) ->
  filter a (filter b xs) = filter a xs.
Proof.
  induction xs as [|x xs IH]; intros H; [reflexivity|]. cbn [filter].
  destruct (b x) eqn:Eb; cbn [filter].
  - destruct (a x); rewrite IH; auto using in_cons.
  - destruct (a x) eqn:Ea.
    + rewrite (H x (in_eq _ _) Ea) in Eb. discriminate.
    + apply IH. auto using in_cons.
Qed.

Lemma filter_comm {A} (a b : A -> bool) xs :
  filter a (filter b xs) = filter b (filter a xs).
Proof.
  induction xs as [|x xs IH]; [reflexivity|]. cbn [filter].
  destruct (a x) eqn:Ea, (b x) eqn:Eb; cbn [filter]; rewrite ?Ea, ?Eb, IH; reflexivity.
Qed.

(** Taking a fired transition reset off the list leaves the throttle's
    timers where they are. *)
Lemma remove_other_timeout (id : handle) ts p :
  NoDup (map timeout_handle ts) -> In p ts -> timeout_handle p = id ->
  is_throttle_release p = false ->
  filter is_throttle_release (filter (fun q => negb (handle_is id (fst q))) ts) =
  filter is_throttle_release ts.
Proof.
  intros Hnd Hin Hh Hk. apply filter_filter_kept. intros q Hq Hrel.
  unfold handle_is. apply negb_true_iff. apply Pos.eqb_neq. intros E.
  assert (q = p) by (apply (distinct_handles_inj ts); auto; unfold timeout_handle in *; congruence).
  congruence.
Qed.

(** Taking the fired throttle timer off the list leaves none. *)
Lemma remove_throttle_timeout (id : handle) ts p x :
  In p ts -> timeout_handle p = id -> is_throttle_release p = true ->
  filter is_throttle_release ts = [x] ->
  filter is_throttle_release (filter (fun q => negb (handle_is id (fst q))) ts) = [].
Proof.
  intros Hin Hh Hk Hx. rewrite filter_comm, Hx.
  assert (Hp : In p (filter is_throttle_release ts)) by (apply filter_In; auto).
  rewrite Hx in Hp. destruct Hp as [-> | []].
  cbn [filter]. unfold handle_is. unfold timeout_handle in Hh. rewrite Hh, Pos.eqb_refl.
  reflexivity.
Qed.

Ltac fresh_goal :=
  match goal with
  | H : Forall _ ?ts |- Forall _ (?ts ++ [_]) =>
      eapply fresh_snoc; [exact H | lia | lia]
  | H : Forall _ ?ts |- Forall _ ?ts =>
      eapply fresh_weaken; [exact H | lia]
  | H : NoDup (map timeout_handle ?ts), F : Forall _ ?ts
    |- NoDup (map timeout_handle (?ts ++ [_])) =>
      eapply distinct_snoc; [exact H | exact F | lia]
  | H : NoDup _ |- NoDup _ => exact H
  end.

Ltac sync_goal :=
  match goal with
  | H : negb (Bool.eqb ?a ?b) = false |- ?a = ?b =>
      destruct a, b; try discriminate; reflexivity
  | |- ?a = ?a => reflexivity
  | H : ?a = ?b |- ?a = ?b => exact H
  end.

Ltac throttle_goal :=
  unfold throttle_ok, handles_ok, throttle_timers in *; simp; inv_hyps; simp;
  rewrite ?throttle_timers_snoc, ?app_nil_r;
  repeat match goal with
         | |- _ /\ _ => split
         | H : ?x = _ |- context [?x] => rewrite H
         end;
  try solve [ fresh_goal | sync_goal | reflexivity | eexists; reflexivity | discriminate
            | assumption ].

Section Throttle.
Context {builtins : Builtins}.

Lemma throttle_listener l e now w :
  throttle_ok w -> throttle_ok (settle (run_listener l e now) w).
Proof. intros H. destruct l; exec w; throttle_goal. Qed.

Lemma throttle_autoplay_tick w : throttle_ok w -> throttle_ok (settle autoplay_tick w).
Proof. intros H. exec w; throttle_goal. Qed.

Lemma throttle_animate w fs : throttle_ok w -> throttle_ok (settle animate (set_frames fs w)).
Proof. intros H. exec w; throttle_goal. Qed.

Lemma throttle_new o width : throttle_ok (new_RollingGallery o width).
Proof.
  unfold new_RollingGallery, fresh_page, blank_gallery. destruct o.
  apply wp_settle; wp_run; throttle_goal; repeat constructor.
Qed.

(** The callback of a transition reset leaves the throttle alone. *)
Lemma throttle_snap_timeout w : throttle_ok w -> throttle_ok (settle snap_timeout w).
Proof. intros H. exec w; throttle_goal. Qed.

(** The callback that ends the window, once its timer is off the list. *)
Lemma throttle_release_callback w :
  handles_ok w -> throttle_timers w = [] -> lastArgs (throttle_state w) = true ->
  galleryTrack (this w) <> None ->
  let w' := settle (throttle_timeout handleResize) w in
  throttle_ok w' /\
  inThrottle (throttle_state w') = false /\ lastArgs (throttle_state w') = false /\
  isScreenSizeSm (this w') = Qle_bool (innerWidth w) (Options.smBreakpoint (options (this w))) /\
  innerWidth w' = innerWidth w.
Proof.
  intros H Ht Hl Hk. cbv zeta. break_world w.
  match goal with ts : Throttle |- _ => destruct ts end. simp. subst.
  settle_at. wp_run; try congruence; throttle_goal.
Qed.

(** A resize, whatever the throttle was doing, leaves it in order. *)
Lemma throttle_resized width w :
  throttle_ok w -> throttle_ok (settle (throttled handleResize 100) (set_innerWidth width w)).
Proof. intros H. exec w; throttle_goal. Qed.

Lemma throttle_timeout_fires id w p :
  Inv w -> throttle_ok w ->
  find (fun p => handle_is id (fst p)) (timeouts w) = Some p ->
  throttle_ok
    (settle (run_timeout (snd (fst p)))
       (set_timeouts (filter (fun p => negb (handle_is id (fst p))) (timeouts w)) w)).
Proof.
  intros HI H E. apply find_timeout in E. destruct E as [Hin Hh].
  destruct H as [[Hf Hd] Ht].
  set (w0 := set_timeouts (filter (fun p => negb (handle_is id (fst p))) (timeouts w)) w).
  assert (H0 : handles_ok w0).
  { split; cbn; [now apply fresh_filter | now apply distinct_filter]. }
  destruct p as [[id' cb] d]. cbn [fst snd]. destruct cb; cbn [run_timeout].
  - assert (Hrel : inThrottle (throttle_state w) = true /\
                   lastArgs (throttle_state w) = true /\
                   exists x, throttle_timers w = [x]).
    { destruct (inThrottle (throttle_state w)).
      - destruct Ht as [Hl [i Hi]]. eauto.
      - destruct Ht as [Hn _]. exfalso.
        assert (Hp : In (id', throttle_release, d) (throttle_timers w))
          by (apply filter_In; auto).
        rewrite Hn in Hp. destruct Hp. }
    destruct Hrel as (_ & Hl & x & Hx).
    apply throttle_release_callback; auto.
    + unfold w0, throttle_timers. cbn [timeouts set_timeouts].
      eapply remove_throttle_timeout; eauto.
    + destruct HI as [[k [Hk _]] _]. cbn. congruence.
  - apply throttle_snap_timeout. split; [exact H0|].
    assert (Et : throttle_timers w0 = throttle_timers w).
    { unfold w0, throttle_timers. cbn [timeouts set_timeouts].
      eapply remove_other_timeout; eauto. }
    rewrite Et. exact Ht.
Qed.

End Throttle.

Section Behaviour.
Context {builtins : Builtins}.

Ltac shows_goal :=
  unfold track_shows_images, rendered_track in *; simp; inv_hyps; simp;
  try solve [ eexists; split; [reflexivity | split; simp; first [assumption | reflexivity]] ].

Lemma shows_listener l e now w :
  track_shows_images w -> track_shows_images (settle (run_listener l e now) w).
Proof. intros H. destruct l; exec w; shows_goal. Qed.

Lemma shows_timeout cb w :
  track_shows_images w -> track_shows_images (settle (run_timeout cb) w).
Proof. intros H. destruct cb; exec w; shows_goal. Qed.

Lemma shows_autoplay_tick w :
  track_shows_images w -> track_shows_images (settle autoplay_tick w).
Proof. intros H. exec w; shows_goal. Qed.

Lemma shows_animate w fs :
  track_shows_images w -> track_shows_images (settle animate (set_frames fs w)).
Proof. intros H. exec w; shows_goal. Qed.

Lemma shows_new o width : track_shows_images (new_RollingGallery o width).
Proof.
  unfold new_RollingGallery, fresh_page, blank_gallery. destruct o.
  apply wp_settle; wp_run; shows_goal.
Qed.

Lemma shows_fire ev w : track_shows_images w -> track_shows_images (fire ev w).
Proof.
  intros H. destruct ev as [width | type e now | id | id | id]; cbn [fire].
  - apply dispatch_keeps; [intros; now apply shows_listener | exact H].
  - apply dispatch_keeps; [intros; now apply shows_listener | exact H].
  - destruct (existsb _ _); [now apply shows_autoplay_tick | exact H].
  - destruct (existsb _ _); [| exact H]. now apply shows_animate.
  - destruct (find _ _) as [[[? cb] ?]|]; [| exact H].
    apply shows_timeout. exact H.
Qed.

Lemma reachable_shows w : reachable w -> track_shows_images w.
Proof. induction 1; [apply shows_new | now apply shows_fire]. Qed.

Lemma gallery_items_nth n radius gap xs : forall index i,
  nth_error (gallery_items n radius gap xs index) i =
  option_map (fun imageUrl =>
    Item.mk "gallery-item" "gallery-img" imageUrl
      ("Gallery image " ++ Number_toString (inject_Z (Z.of_nat (index + i)) + 1)) "lazy"
      (item_transform ((360 / n) * inject_Z (Z.of_nat (index + i))) radius gap))
    (nth_error xs i).
Proof.
  induction xs as [|x xs IH]; intros index i.
  - destruct i; reflexivity.
  - destruct i as [|i]; cbn [gallery_items nth_error option_map].
    + now rewrite Nat.add_0_r.
    + rewrite IH. now rewrite Nat.add_succ_comm.
Qed.

Lemma gallery_items_src n radius gap xs : forall index,
  map Item.img_src (gallery_items n radius gap xs index) = xs.
Proof.
  induction xs as [|x xs IH]; intros index; cbn [gallery_items map]; [reflexivity|].
  cbn [Item.img_src]. now rewrite IH.
Qed.

(** X1.  In every reachable world the track holds exactly what
    [renderGalleryItems] lays out for the current images and breakpoint: its
    width is the face width (150 on a small screen, 350 otherwise) in [px],
    it has one item per image, in the order of [images], and the item of
    index [i] shows image [i] with the alternative text
    [Gallery image <i+1>], loads lazily and is placed at the angle
    [(360 / images.length) * i] on the circle of the radius computed from
    the face width. *)
Theorem track_holds_one_item_per_image (w : World) :
  reachable w ->
  let g := this w in
  let n := length_number (images g) in
  let faceWidth : Q := if isScreenSizeSm g then 150 else 350 in
  let radius := (faceWidth / 2) / Math_tan (Math_PI / n) in
  exists k, galleryTrack g = Some k /\
    Style.width (Track.style k) = (Number_toString faceWidth ++ "px")%string /\
    map Item.img_src (Track.items k) = images g /\
    forall i imageUrl, nth_error (images g) i = Some imageUrl ->
      nth_error (Track.items k) i =
      Some (Item.mk "gallery-item" "gallery-img" imageUrl
              ("Gallery image " ++ Number_toString (inject_Z (Z.of_nat i) + 1)) "lazy"
              (item_transform ((360 / n) * inject_Z (Z.of_nat i)) radius
                 (Options.gapFactor (options g)))).
Proof.
  intros R. cbv zeta.
  destruct (reachable_shows w R) as (k & Hk & Hi & Hw).
  exists k. split; [exact Hk|]. unfold rendered_track in Hi, Hw. cbn in Hi, Hw.
  split; [exact Hw|]. rewrite Hi. split; [apply gallery_items_src|].
  intros i url Hn. rewrite gallery_items_nth, Hn. reflexivity.
Qed.

(** *** Listeners *)

Lemma new_listeners o width :
  let w := new_RollingGallery o width in
  options (this w) = merge_options o /\
  listeners w = attached_listeners (options (this w)).
Proof.
  unfold new_RollingGallery, fresh_page, blank_gallery, attached_listeners.
  destruct o as [? autoplay pauseOnHover ? ? ? ? ? ? ?].
  destruct autoplay as [[|]|], pauseOnHover as [[|]|]; cbv zeta.
  all: settle_at; wp_run; split; reflexivity.
Qed.

Lemma reachable_listeners w :
  reachable w -> listeners w = attached_listeners (options (this w)).
Proof.
  intros R. destruct (reachable_fixed w R) as [o [width E]].
  unfold fixed in E. injection E as E1 _ E3. rewrite E1, E3.
  apply (new_listeners o width).
Qed.

(** *** Autoplay only when asked for *)

Ltac idle_goal :=
  unfold autoplay_off_idle in *; simp; intros; try discriminate; auto;
  subst; rewrite ?andb_false_r in *; try discriminate; auto.

Lemma idle_listener l e now w :
  autoplay_off_idle w -> autoplay_off_idle (settle (run_listener l e now) w).
Proof. intros H. destruct l; exec w; idle_goal. Qed.

Lemma idle_timeout cb w :
  autoplay_off_idle w -> autoplay_off_idle (settle (run_timeout cb) w).
Proof. intros H. destruct cb; exec w; idle_goal. Qed.

Lemma idle_autoplay_tick w :
  autoplay_off_idle w -> autoplay_off_idle (settle autoplay_tick w).
Proof. intros H. exec w; idle_goal. Qed.

Lemma idle_animate w fs :
  autoplay_off_idle w -> autoplay_off_idle (settle animate (set_frames fs w)).
Proof. intros H. exec w; idle_goal. Qed.

Lemma idle_new o width : autoplay_off_idle (new_RollingGallery o width).
Proof.
  unfold new_RollingGallery, fresh_page, blank_gallery. destruct o.
  apply wp_settle; wp_run; idle_goal; congruence.
Qed.

Lemma idle_fire ev w : autoplay_off_idle w -> autoplay_off_idle (fire ev w).
Proof.
  intros H. destruct ev as [width | type e now | id | id | id]; cbn [fire].
  - apply dispatch_keeps; [intros; now apply idle_listener | exact H].
  - apply dispatch_keeps; [intros; now apply idle_listener | exact H].
  - destruct (existsb _ _); [now apply idle_autoplay_tick | exact H].
  - destruct (existsb _ _); [| exact H]. now apply idle_animate.
  - destruct (find _ _) as [[[? cb] ?]|]; [| exact H].
    apply idle_timeout. exact H.
Qed.

Lemma reachable_idle w : reachable w -> autoplay_off_idle w.
Proof. induction 1; [apply idle_new | now apply idle_fire]. Qed.

(** X2.  A gallery whose [autoplay] option is off never has an autoplay
    interval: in every reachable world [autoplayIntervalId] is [null], no
    interval is live, and an interval callback firing changes nothing. *)
Theorem no_interval_without_autoplay (w : World) :
  reachable w ->
  Options.autoplay (options (this w)) = false ->
  autoplayIntervalId (this w) = None /\ intervals w = [] /\
  forall id, fire (IntervalFires id) w = w.
Proof.
  intros R Ha. pose proof (reachable_idle w R Ha) as Hid.
  destruct (reachable_Inv w R) as (_ & Hi & _). unfold one_interval in Hi.
  rewrite Hid in Hi. repeat split; auto.
  intros id. cbn [fire]. rewrite Hi. reflexivity.
Qed.

(** *** Hover *)

Ltac motion_goal :=
  unfold motion, Inv, track_shows_rotation, one_interval, one_frame, handle_is,
    rendered_track in *; simp; inv_hyps; simp;
  cbn [filter app option_map]; rewrite ?Pos.eqb_refl; cbn [filter app negb]; simp;
  repeat match goal with |- _ /\ _ => split end;
  try solve [ reflexivity | congruence ].

Lemma handleMouseEnter_result w :
  Inv w -> Options.pauseOnHover (options (this w)) = true ->
  let w' := settle handleMouseEnter w in
  intervals w' = [] /\ autoplayIntervalId (this w') = None /\
  motion w' = motion w /\ nextHandle w' = nextHandle w.
Proof.
  intros H Hp. cbv zeta. break_world w. simp. subst. settle_at. wp_run; motion_goal.
Qed.

Lemma handleMouseLeave_result w :
  Inv w ->
  Options.pauseOnHover (options (this w)) = true ->
  Options.autoplay (options (this w)) = true ->
  autoplayIntervalId (this w) = None ->
  let w' := settle handleMouseLeave w in
  intervals w' = [(nextHandle w, Options.autoplayIntervalMs (options (this w)))] /\
  autoplayIntervalId (this w') = Some (nextHandle w) /\
  motion w' = motion w.
Proof.
  intros H Hp Ha Hn. cbv zeta. break_world w. simp. subst. settle_at. wp_run; motion_goal.
Qed.

Lemma hover_listeners w :
  reachable w ->
  listeners_for resize w = [throttled_resize] /\
  if Options.autoplay (options (this w)) && Options.pauseOnHover (options (this w)) then
    listeners_for mouseenter w = [bound_handleMouseEnter] /\
    listeners_for mouseleave w = [bound_handleMouseLeave]
  else listeners_for mouseenter w = [] /\ listeners_for mouseleave w = [].
Proof.
  intros R. unfold listeners_for. rewrite (reachable_listeners w R).
  unfold attached_listeners.
  destruct (Options.autoplay (options (this w)) && Options.pauseOnHover (options (this w)));
    repeat split; reflexivity.
Qed.

(** X3.  Hovering.  Unless both [autoplay] and [pauseOnHover] are on, no
    hover listener is attached and [mouseenter] and [mouseleave] change
    nothing.  When both are on, [mouseenter] stops the autoplay (no live
    interval, [autoplayIntervalId] cleared) and the [mouseleave] that
    follows starts exactly one interval of [autoplayIntervalMs] again;
    neither changes the rotation, the velocity, the drag or the flick. *)
Theorem hover_pauses_and_resumes_autoplay (w : World) (e : PointerEvent.t) (now : Q) :
  reachable w ->
  let o := options (this w) in
  (Options.autoplay o && Options.pauseOnHover o = false ->
   fire (Dispatched mouseenter e now) w = w /\ fire (Dispatched mouseleave e now) w = w) /\
  (Options.autoplay o = true -> Options.pauseOnHover o = true ->
   let w1 := fire (Dispatched mouseenter e now) w in
   let w2 := fire (Dispatched mouseleave e now) w1 in
   intervals w1 = [] /\ autoplayIntervalId (this w1) = None /\ motion w1 = motion w /\
   intervals w2 = [(nextHandle w, Options.autoplayIntervalMs o)] /\ motion w2 = motion w).
Proof.
  intros R o. destruct (hover_listeners w R) as [_ HL]. fold o in HL. split.
  - intros Hc. rewrite Hc in HL. destruct HL as [He Hl].
    cbn [fire]. rewrite He, Hl. split; reflexivity.
  - intros Ha Hp. rewrite Ha, Hp in HL. destruct HL as [He Hl]. cbv zeta.
    assert (E1 : fire (Dispatched mouseenter e now) w = settle handleMouseEnter w).
    { cbn [fire]. rewrite He. reflexivity. }
    rewrite E1.
    destruct (handleMouseEnter_result w (reachable_Inv w R) Hp) as (H1 & H2 & H3 & H4).
    set (w1 := settle handleMouseEnter w) in *.
    assert (R1 : reachable w1) by (rewrite <- E1; now apply reachable_fire).
    assert (Ho : options (this w1) = options (this w)).
    { rewrite <- E1. apply fire_options. }
    destruct (hover_listeners w1 R1) as [_ HL1]. rewrite Ho in HL1. fold o in HL1.
    rewrite Ha, Hp in HL1. destruct HL1 as [_ Hl1].
    assert (E2 : fire (Dispatched mouseleave e now) w1 = settle handleMouseLeave w1).
    { cbn [fire]. rewrite Hl1. reflexivity. }
    rewrite E2.
    destruct (handleMouseLeave_result w1 (reachable_Inv w1 R1)) as (H5 & _ & H6);
      try (rewrite Ho; assumption); auto.
    rewrite H4, Ho in H5. repeat split; auto. now rewrite H6.
Qed.

(** *** Passive events *)

Lemma motion_throttled_resize w :
  Inv w -> motion (settle (throttled handleResize 100) w) = motion w.
Proof. intros H. break_world w. settle_at. wp_run; motion_goal. Qed.

Lemma motion_handleMouseEnter w : Inv w -> motion (settle handleMouseEnter w) = motion w.
Proof. intros H. break_world w. settle_at. wp_run; motion_goal. Qed.

Lemma motion_handleMouseLeave w : Inv w -> motion (settle handleMouseLeave w) = motion w.
Proof. intros H. break_world w. settle_at. wp_run; motion_goal. Qed.

Lemma motion_timeout cb w : Inv w -> motion (settle (run_timeout cb) w) = motion w.
Proof. intros H. destruct cb; break_world w; settle_at; wp_run; motion_goal. Qed.

(** X4.  A window resize, a hover event and a timeout firing never move
    the gallery: the rotation, the velocity, the state of the drag, the
    pending animation frame and the track's transform are as before. *)
Theorem passive_events_do_not_move_the_gallery (ev : Event) (w : World) :
  reachable w -> passive ev = true -> motion (fire ev w) = motion w.
Proof.
  intros R Hp. pose proof (reachable_Inv w R) as HI.
  destruct (hover_listeners w R) as [Hr HL].
  destruct ev as [width | type e now | id | id | id]; try discriminate; cbn [fire].
  - assert (Hr' : listeners_for resize (set_innerWidth width w) = [throttled_resize]) by exact Hr.
    rewrite Hr'. cbn [fold_left run_listener].
    rewrite motion_throttled_resize; [reflexivity | exact HI].
  - destruct (Options.autoplay (options (this w)) && Options.pauseOnHover (options (this w)));
      destruct HL as [He Hl]; destruct type; try discriminate;
      rewrite ?Hr, ?He, ?Hl; cbn [fold_left run_listener];
      auto using motion_throttled_resize, motion_handleMouseEnter, motion_handleMouseLeave.
  - destruct (find _ _) as [[[? cb] ?]|]; [| reflexivity].
    rewrite motion_timeout; [reflexivity | exact HI].
Qed.

(** *** The start of a drag *)

Lemma fire_pointerdown e now w :
  reachable w -> fire (Dispatched pointerdown e now) w = settle (handlePointerDown now e) w.
Proof.
  intros R. destruct (reachable_facts w R) as (_ & Ld & _).
  cbn [fire]. rewrite Ld. reflexivity.
Qed.

Lemma truthy_true x : ~ x == 0 -> truthy x = true.
Proof.
  intros H. unfold truthy. destruct (Qeq_bool x 0) eqn:E; [|reflexivity].
  apply Qeq_bool_iff in E. contradiction.
Qed.

(** X5.  A [pointerdown] on the track with the primary button (or with a
    [touches] list) at a [clientX] other than 0 starts a drag from any
    reachable world: the drag is anchored at the pointer and at the current
    rotation, the velocity is reset, the autoplay interval and a pending
    flick frame are cancelled, the track's transition is switched off, its
    cursor is [grabbing], the pointer is captured, and the rotation shown
    does not change. *)
Theorem pointerdown_starts_a_drag (w : World) (e : PointerEvent.t) (now : Q) :
  reachable w ->
  PointerEvent.button e = 0%Z \/ PointerEvent.touches e <> None ->
  ~ PointerEvent.clientX e == 0 ->
  let w' := fire (Dispatched pointerdown e now) w in
  let g' := this w' in
  isDragging g' = true /\
  startX g' = PointerEvent.clientX e /\ lastMoveX g' = PointerEvent.clientX e /\
  lastMoveTime g' = now /\
  startRotation g' = rotationDegrees (this w) /\
  rotationDegrees g' = rotationDegrees (this w) /\
  currentVelocity g' = 0 /\
  autoplayIntervalId g' = None /\ intervals w' = [] /\
  animationFrameId g' = None /\ frames w' = [] /\
  uncaught w' = uncaught w /\
  exists k, galleryTrack g' = Some k /\
    Style.transition (Track.style k) = "none"%string /\
    Style.cursor (Track.style k) = "grabbing"%string /\
    Style.transform (Track.style k) = rotateY (rotationDegrees (this w)) /\
    Track.pointerCapture k = Some (PointerEvent.pointerId e).
Proof.
  intros R Hb Hx. cbv zeta. rewrite (fire_pointerdown e now w R).
  pose proof (reachable_Inv w R) as HI. apply truthy_true in Hx.
  destruct e as [button x touches pointerId]. cbn [PointerEvent.button PointerEvent.clientX
    PointerEvent.touches PointerEvent.pointerId] in *.
  assert (Hg : negb (Z.eqb button 0)
               && match touches with None => true | Some _ => false end = false).
  { destruct Hb as [-> | Hb]; [reflexivity|]. destruct touches; [|congruence].
    apply andb_false_r. }
  break_world w. settle_at. wp_run; try congruence.
  all: unfold Inv, track_shows_rotation, one_interval, one_frame, handle_is in *; simp;
       inv_hyps; simp; cbn [filter]; rewrite ?Pos.eqb_refl; cbn [negb filter].
  all: repeat match goal with |- _ /\ _ => split end; try reflexivity.
  all: eexists; split; [reflexivity|]; simp; repeat split; auto.
Qed.

(** X6.  A primary-button [pointerdown] at [clientX = 0] without a
    [touches] list throws on line 133, after [isDragging] was set and
    before anything else: the world is the old one with [isDragging] true
    and the TypeError reported; the anchor of the drag is not recorded and
    neither the autoplay nor a flick is stopped. *)
Theorem pointerdown_at_clientX_zero_leaves_half_a_drag
  (w : World) (e : PointerEvent.t) (now : Q) :
  reachable w ->
  PointerEvent.button e = 0%Z ->
  PointerEvent.clientX e == 0 ->
  PointerEvent.touches e = None ->
  fire (Dispatched pointerdown e now) w =
    set_uncaught
      (uncaught w ++ ["TypeError: Cannot read properties of undefined (reading '0')"%string])
      (set_this (set_isDragging true (this w)) w).
Proof.
  intros R Hb Hx Ht. rewrite (fire_pointerdown e now w R).
  unfold settle. rewrite (pointerdown_at_clientX_zero_throws w e now Hb Hx Ht). reflexivity.
Qed.

(** *** Autoplay comes back *)

Lemma handlePointerUp_autoplay e w :
  Inv w -> isDragging (this w) = true ->
  Options.autoplay (options (this w)) = true ->
  Qgtb (Math_abs (currentVelocity (this w))) (Options.flickMinVelocity (options (this w))) = false ->
  autoplayIntervalId (this (settle (handlePointerUp e) w)) <> None.
Proof.
  intros H Hd Ha Hv. break_world w. simp. subst. settle_at. wp_run; simp; try congruence.
  all: unfold Inv, track_shows_rotation in H; simp; inv_hyps; congruence.
Qed.

Lemma animate_autoplay w :
  Inv w ->
  Options.autoplay (options (this w)) = true ->
  Qgtb (Math_abs (currentVelocity (this w) * Options.flickDecay (options (this w))))
    (Options.flickMinVelocity (options (this w))) = false ->
  autoplayIntervalId (this (settle animate (set_frames [] w))) <> None.
Proof.
  intros H Ha Hv. break_world w. simp. subst. settle_at. wp_run; simp; try congruence.
  all: unfold Inv, track_shows_rotation in H; simp; inv_hyps; congruence.
Qed.

Lemma one_interval_running w :
  Inv w -> autoplayIntervalId (this w) <> None ->
  exists id, autoplayIntervalId (this w) = Some id /\
             intervals w = [(id, Options.autoplayIntervalMs (options (this w)))].
Proof.
  intros (_ & Hi & _) Hn. unfold one_interval in Hi.
  destruct (autoplayIntervalId (this w)) as [id|]; [|congruence]. now exists id.
Qed.

(** X7.  With [autoplay] on, the autoplay runs again once a motion ends in
    a snap: after the release of a drag at a velocity of at most
    [flickMinVelocity], and after the animation frame that ends a flick,
    exactly one interval of [autoplayIntervalMs] is live and
    [autoplayIntervalId] names it. *)
Theorem autoplay_resumes_when_motion_ends (w : World) (e : PointerEvent.t) (now : Q) :
  reachable w ->
  let g := this w in
  Options.autoplay (options g) = true ->
  (isDragging g = true ->
   Math_abs (currentVelocity g) <= Options.flickMinVelocity (options g) ->
   let w' := fire (Dispatched pointerup e now) w in
   exists id, autoplayIntervalId (this w') = Some id /\
              intervals w' = [(id, Options.autoplayIntervalMs (options g))]) /\
  (forall frame, In frame (frames w) ->
   Math_abs (currentVelocity g * Options.flickDecay (options g))
     <= Options.flickMinVelocity (options g) ->
   let w' := fire (AnimationFrameFires frame) w in
   exists id, autoplayIntervalId (this w') = Some id /\
              intervals w' = [(id, Options.autoplayIntervalMs (options g))]).
Proof.
  intros R g Ha. subst g. pose proof (reachable_Inv w R) as HI. split.
  - intros Hd Hv. cbv zeta. apply Qgtb_false in Hv.
    pose proof (handlePointerUp_autoplay e w HI Hd Ha Hv) as Hn.
    rewrite <- (fire_pointerup e now w R) in Hn.
    rewrite <- (fire_options (Dispatched pointerup e now) w).
    apply one_interval_running; [apply Inv_fire, HI | exact Hn].
  - intros frame Hin Hv. cbv zeta. apply Qgtb_false in Hv.
    pose proof (animate_autoplay w HI Ha Hv) as Hn.
    rewrite <- (fire_frame w frame HI Hin) in Hn.
    rewrite <- (fire_options (AnimationFrameFires frame) w).
    apply one_interval_running; [apply Inv_fire, HI | exact Hn].
Qed.

(** *** The constructor *)

(** X8.  The world [new RollingGallery(container, options)] leaves behind:
    the options are the defaults overridden by the given ones, the images
    are the given ones or the placeholder, the breakpoint flag is that of
    the window width, the gallery is at rotation 0 and at rest, nothing was
    thrown, the listeners are those of [attachEventListeners], and one
    autoplay interval of [autoplayIntervalMs] is live exactly when
    [autoplay] is on. *)
Theorem new_gallery_is_at_rest (o : UserOptions.t) (width : Q) :
  let w := new_RollingGallery o width in
  let g := this w in
  let given := Options.images (merge_options o) in
  options g = merge_options o /\
  images g = (if Nat.eqb (List.length given) 0 then [placeholder] else given) /\
  isScreenSizeSm g = Qle_bool width (Options.smBreakpoint (options g)) /\
  rotationDegrees g = 0 /\ currentVelocity g = 0 /\ isDragging g = false /\
  animationFrameId g = None /\ frames w = [] /\ timeouts w = [] /\ uncaught w = [] /\
  listeners w = attached_listeners (options g) /\
  if Options.autoplay (options g) then
    autoplayIntervalId g = Some 1%positive /\
    intervals w = [(1%positive, Options.autoplayIntervalMs (options g))]
  else autoplayIntervalId g = None /\ intervals w = [].
Proof.
  unfold new_RollingGallery, fresh_page, blank_gallery, attached_listeners.
  destruct o as [? autoplay pauseOnHover ? ? ? ? ? ? ?].
  destruct autoplay as [[|]|], pauseOnHover as [[|]|]; cbv zeta.
  all: settle_at; wp_run; repeat split; reflexivity.
Qed.

(** *** Moves of a drag *)

Lemma fire_pointermove e now w :
  reachable w -> fire (Dispatched pointermove e now) w = settle (handlePointerMove now e) w.
Proof.
  intros R. destruct (reachable_facts w R) as (_ & _ & Lm & _).
  cbn [fire]. rewrite Lm. reflexivity.
Qed.

(** What a move of the drag does, away from [clientX = 0]. *)
Lemma handlePointerMove_result (w : World) (e : PointerEvent.t) (now : Q) :
  isDragging (this w) = true ->
  ~ PointerEvent.clientX e == 0 ->
  let g := this w in
  let currentX := PointerEvent.clientX e in
  let w' := settle (handlePointerMove now e) w in
  let g' := this w' in
  rotationDegrees g' = startRotation g + (currentX - startX g) * Options.dragFactor (options g) /\
  currentVelocity g' =
    (if Qgtb (now - lastMoveTime g) 0
     then (((currentX - lastMoveX g) / (now - lastMoveTime g)) * 1000)
          * Options.dragFactor (options g)
     else currentVelocity g) /\
  lastMoveX g' = currentX /\ lastMoveTime g' = now /\
  isDragging g' = true /\ startX g' = startX g /\ startRotation g' = startRotation g /\
  intervals w' = intervals w /\ frames w' = frames w /\ timeouts w' = timeouts w /\
  uncaught w' = uncaught w.
Proof.
  intros Hd Hx. cbv zeta. apply truthy_true in Hx.
  destruct e as [button x touches pointerId]. cbn [PointerEvent.clientX] in *.
  break_world w. simp. subst. settle_at. wp_run; try congruence.
  all: repeat split; reflexivity.
Qed.

(** X9.  A [pointermove] during a drag, at a [clientX] other than 0: the
    rotation is [startRotation + (clientX - startX) * dragFactor] and the
    track shows it; the velocity becomes
    [(clientX - lastMoveX) / (now - lastMoveTime) * 1000 * dragFactor] if
    time has passed since the last move and is kept otherwise; the last
    position and time are recorded; the anchor of the drag, the intervals,
    frames and timeouts are untouched and nothing is thrown. *)
Theorem pointermove_during_a_drag (w : World) (e : PointerEvent.t) (now : Q) :
  reachable w ->
  isDragging (this w) = true ->
  ~ PointerEvent.clientX e == 0 ->
  let g := this w in
  let currentX := PointerEvent.clientX e in
  let w' := fire (Dispatched pointermove e now) w in
  let g' := this w' in
  rotationDegrees g' = startRotation g + (currentX - startX g) * Options.dragFactor (options g) /\
  currentVelocity g' =
    (if Qgtb (now - lastMoveTime g) 0
     then (((currentX - lastMoveX g) / (now - lastMoveTime g)) * 1000)
          * Options.dragFactor (options g)
     else currentVelocity g) /\
  lastMoveX g' = currentX /\ lastMoveTime g' = now /\
  isDragging g' = true /\ startX g' = startX g /\ startRotation g' = startRotation g /\
  intervals w' = intervals w /\ frames w' = frames w /\ timeouts w' = timeouts w /\
  uncaught w' = uncaught w /\
  exists k, galleryTrack g' = Some k /\
            Style.transform (Track.style k) = rotateY (rotationDegrees g').
Proof.
  intros R Hd Hx. cbv zeta.
  pose proof (reachable_Inv _ (reachable_fire (Dispatched pointermove e now) w R)) as [Ht _].
  rewrite (fire_pointermove e now w R) in *.
  pose proof (handlePointerMove_result w e now Hd Hx) as H. cbv zeta in H.
  repeat match goal with
         | H : _ /\ _ |- _ => destruct H
         | |- _ /\ _ => split
         end; auto.
Qed.


Lemma run_app t1 t2 w : run (t1 ++ t2) w = run t2 (run t1 w).
Proof. unfold run. apply fold_left_app. Qed.

Lemma pointermoves_keep_the_anchor (moves : list (PointerEvent.t * Q)) : forall w,
  reachable w ->
  isDragging (this w) = true ->
  Forall (fun m => ~ PointerEvent.clientX (fst m) == 0) moves ->
  let w' := run (pointermoves moves) w in
  reachable w' /\ isDragging (this w') = true /\
  startX (this w') = startX (this w) /\ startRotation (this w') = startRotation (this w) /\
  options (this w') = options (this w).
Proof.
  induction moves as [|[e now] moves IH]; intros w R Hd Hall; cbv zeta.
  - repeat split; auto.
  - inversion Hall as [|? ? Hx Hrest]; subst. cbn [fst] in Hx.
    destruct (handlePointerMove_result w e now Hd Hx) as (_ & _ & _ & _ & Hd' & Hs & Hr & _).
    rewrite <- (fire_pointermove e now w R) in Hd', Hs, Hr.
    change (run (pointermoves ((e, now) :: moves)) w)
      with (run (pointermoves moves) (fire (Dispatched pointermove e now) w)).
    destruct (IH (fire (Dispatched pointermove e now) w)) as (R' & Hd'' & Hs' & Hr' & Ho');
      auto using reachable_fire.
    pose proof (fire_options (Dispatched pointermove e now) w) as Ho.
    repeat split; auto; congruence.
Qed.

(** X10.  During a drag the rotation depends on the last pointer position
    only: after any sequence of [pointermove] events (none at
    [clientX = 0]) it is [startRotation + (clientX - startX) * dragFactor]
    for the [clientX] of the last one, with the anchor of the world the
    sequence started in. *)
Theorem drag_rotation_depends_on_last_position_only
  (w : World) (moves : list (PointerEvent.t * Q)) (e : PointerEvent.t) (now : Q) :
  reachable w ->
  isDragging (this w) = true ->
  Forall (fun m => ~ PointerEvent.clientX (fst m) == 0) moves ->
  ~ PointerEvent.clientX e == 0 ->
  let g := this w in
  rotationDegrees (this (run (pointermoves (moves ++ [(e, now)])) w)) =
    startRotation g + (PointerEvent.clientX e - startX g) * Options.dragFactor (options g).
Proof.
  intros R Hd Hall Hx. cbv zeta.
  unfold pointermoves. rewrite map_app, run_app. fold (pointermoves moves).
  destruct (pointermoves_keep_the_anchor moves w R Hd Hall) as (R' & Hd' & Hs & Hr & Ho).
  change (run (map (fun m => Dispatched pointermove (fst m) (snd m)) [(e, now)])
            (run (pointermoves moves) w))
    with (fire (Dispatched pointermove e now) (run (pointermoves moves) w)).
  destruct (handlePointerMove_result _ e now Hd' Hx) as (H & _).
  rewrite <- (fire_pointermove e now _ R') in H.
  rewrite H, Hs, Hr, Ho. reflexivity.
Qed.

(** *** Autoplay, tick after tick *)

Lemma tick_result w id :
  Inv w -> autoplayIntervalId (this w) = Some id ->
  let w' := fire (IntervalFires id) w in
  rotationDegrees (this w') = rotationDegrees (this w) - 360 / length_number (images (this w)) /\
  autoplayIntervalId (this w') = Some id.
Proof.
  intros ((k & Hk & _) & Hi & _) Hid. unfold one_interval in Hi. rewrite Hid in Hi.
  cbv zeta. cbn [fire]. rewrite Hi. cbn [existsb]. unfold handle_is. cbn [fst].
  rewrite Pos.eqb_refl. cbn [orb].
  break_world w. simp. subst. settle_at. wp_run. split; reflexivity.
Qed.

(** X11.  Autoplay ticks compose: [n] firings of the autoplay interval
    leave [rotationDegrees] at the old value with [360 / images.length]
    subtracted [n] times, one subtraction per tick as line 197 does it (the
    rotation is neither reduced modulo 360 nor snapped in between, and in
    binary64 the subtractions need not add up to whole turns:
    [binary64_ticks_overshoot]); the interval stays the one
    [autoplayIntervalId] names and the track shows the rotation. *)
Theorem autoplay_ticks_subtract_one_face_each (w : World) (id : handle) (n : nat) :
  reachable w ->
  autoplayIntervalId (this w) = Some id ->
  let face := 360 / length_number (images (this w)) in
  let w' := run (repeat (IntervalFires id) n) w in
  rotationDegrees (this w') = repeatedly Qminus (rotationDegrees (this w)) face n /\
  autoplayIntervalId (this w') = Some id /\
  exists k, galleryTrack (this w') = Some k /\
            Style.transform (Track.style k) = rotateY (rotationDegrees (this w')).
Proof.
  intros R Hid. cbv zeta.
  assert (H : rotationDegrees (this (run (repeat (IntervalFires id) n) w)) =
              repeatedly Qminus (rotationDegrees (this w))
                (360 / length_number (images (this w))) n /\
              autoplayIntervalId (this (run (repeat (IntervalFires id) n) w)) = Some id).
  { revert w R Hid. induction n as [|n IH]; intros w R Hid.
    - cbn. auto.
    - change (run (repeat (IntervalFires id) (S n)) w)
        with (run (repeat (IntervalFires id) n) (fire (IntervalFires id) w)).
      destruct (tick_result w id (reachable_Inv w R) Hid) as [Hr Hid'].
      destruct (IH _ (reachable_fire (IntervalFires id) w R) Hid') as [Hr' Hid''].
      rewrite Hr, fire_images, repeatedly_shift in Hr'. auto. }
  destruct H as [H1 H2]. split; [exact H1|]. split; [exact H2|].
  apply (reachable_Inv _ (reachable_run (repeat (IntervalFires id) n) w R)).
Qed.

(** *** The throttle of the resize listener *)

Lemma throttle_fire ev w : reachable w -> throttle_ok w -> throttle_ok (fire ev w).
Proof.
  intros R H. pose proof (reachable_Inv w R) as HI.
  destruct ev as [width | type e now | id | id | id]; cbn [fire].
  - destruct (hover_listeners w R) as [Hr _].
    assert (Hr' : listeners_for resize (set_innerWidth width w) = [throttled_resize]) by exact Hr.
    rewrite Hr'. cbn [fold_left run_listener]. now apply throttle_resized.
  - apply dispatch_keeps; [intros; now apply throttle_listener | exact H].
  - destruct (existsb _ _); [now apply throttle_autoplay_tick | exact H].
  - destruct (existsb _ _); [| exact H]. now apply throttle_animate.
  - destruct (find _ _) as [p|] eqn:E; [| exact H].
    pose proof (throttle_timeout_fires id w p HI H E) as Hp.
    destruct p as [[id' cb] d]. exact Hp.
Qed.

Lemma reachable_throttle w : reachable w -> throttle_ok w.
Proof.
  induction 1 as [o width | ev w R IH]; [apply throttle_new | now apply throttle_fire].
Qed.

Lemma find_distinct ts p :
  NoDup (map timeout_handle ts) -> In p ts ->
  find (fun q => handle_is (timeout_handle p) (fst q)) ts = Some p.
Proof.
  induction ts as [|x ts IH]; intros Hnd Hin; [destruct Hin|].
  cbn [find]. unfold handle_is at 1.
  destruct (Pos.eqb (fst (fst x)) (timeout_handle p)) eqn:E.
  - apply Pos.eqb_eq in E. f_equal.
    apply (distinct_handles_inj (x :: ts)); auto using in_eq.
  - cbn [map] in Hnd. inversion Hnd; subst. destruct Hin as [-> | Hin].
    + unfold timeout_handle in E. rewrite Pos.eqb_refl in E. discriminate.
    + now apply IH.
Qed.

Lemma throttled_resize_result width w :
  Inv w ->
  let w' := settle (throttled handleResize 100) (set_innerWidth width w) in
  if inThrottle (throttle_state w) then
    lastArgs (throttle_state w) = true -> w' = set_innerWidth width w
  else
    inThrottle (throttle_state w') = true /\ lastArgs (throttle_state w') = true /\
    isScreenSizeSm (this w') = Qle_bool width (Options.smBreakpoint (options (this w))) /\
    timeouts w' = timeouts w ++ [(nextHandle w, throttle_release, 100)] /\
    innerWidth w' = width /\ uncaught w' = uncaught w.
Proof.
  intros H. cbv zeta. break_world w.
  match goal with ts : Throttle |- _ => destruct ts as [[|] la] end; simp.
  - intros ->. settle_at. wp_run. reflexivity.
  - settle_at. wp_run; unfold Inv, track_shows_rotation in H; simp; inv_hyps.
    all: repeat split; try reflexivity; try sync_goal.
Qed.

(** X13.  The resize listener is throttled.  Inside a throttle window a
    resize only changes the window width: [handleResize] is not called.
    Outside one, a resize opens a window (one more timeout of 100 ms) and
    calls [handleResize] at once, so that [isScreenSizeSm] is that of the
    new width. *)
Theorem resize_is_throttled (w : World) (width : Q) :
  reachable w ->
  let w' := fire (WindowResized width) w in
  (inThrottle (throttle_state w) = true -> w' = set_innerWidth width w) /\
  (inThrottle (throttle_state w) = false ->
   inThrottle (throttle_state w') = true /\
   isScreenSizeSm (this w') = Qle_bool width (Options.smBreakpoint (options (this w))) /\
   timeouts w' = timeouts w ++ [(nextHandle w, throttle_release, 100)] /\
   innerWidth w' = width /\ uncaught w' = uncaught w).
Proof.
  intros R. cbv zeta.
  destruct (hover_listeners w R) as [Hr _].
  assert (E : fire (WindowResized width) w =
              settle (throttled handleResize 100) (set_innerWidth width w)).
  { cbn [fire].
    assert (Hr' : listeners_for resize (set_innerWidth width w) = [throttled_resize]) by exact Hr.
    rewrite Hr'. reflexivity. }
  rewrite E. pose proof (throttled_resize_result width w (reachable_Inv w R)) as H.
  cbv zeta in H. destruct (reachable_throttle w R) as [_ Ht]. split; intros Hin.
  - rewrite Hin in H, Ht. apply H. apply Ht.
  - rewrite Hin in H. destruct H as (H1 & _ & H2 & H3 & H4 & H5). auto.
Qed.

(** X14.  Whenever a throttle window is open exactly one timer of 100 ms is
    pending for it, and when it fires the window closes and the trailing
    call of [handleResize] brings [isScreenSizeSm] up to date with the
    width the window has by then. *)
Theorem throttle_window_ends_with_the_current_width (w : World) :
  reachable w ->
  inThrottle (throttle_state w) = true ->
  exists id, throttle_timers w = [(id, throttle_release, 100)] /\
    let w' := fire (TimeoutFires id) w in
    inThrottle (throttle_state w') = false /\
    throttle_timers w' = [] /\
    isScreenSizeSm (this w') =
      Qle_bool (innerWidth w) (Options.smBreakpoint (options (this w))) /\
    innerWidth w' = innerWidth w.
Proof.
  intros R Hin. pose proof (reachable_Inv w R) as HI.
  pose proof (reachable_throttle w R) as Hok.
  destruct Hok as [[Hf Hd] Ht]. rewrite Hin in Ht. destruct Ht as [Hl [id Hid]].
  exists id. split; [exact Hid|]. cbv zeta.
  assert (Hp : In (id, throttle_release, 100) (timeouts w)).
  { assert (H : In (id, throttle_release, 100) (throttle_timers w)) by (rewrite Hid; now left).
    apply filter_In in H. tauto. }
  pose proof (find_distinct (timeouts w) _ Hd Hp) as E. cbn [timeout_handle fst] in E.
  cbn [fire]. rewrite E.
  set (w0 := set_timeouts (filter (fun p => negb (handle_is id (fst p))) (timeouts w)) w).
  destruct (throttle_release_callback w0) as (Hok' & H1 & H2 & H3 & H4).
  - split; cbn; [now apply fresh_filter | now apply distinct_filter].
  - unfold w0, throttle_timers. cbn [timeouts set_timeouts].
    eapply remove_throttle_timeout; eauto.
  - exact Hl.
  - destruct HI as [[k [Hk _]] _]. cbn. congruence.
  - cbn [run_timeout]. repeat split; auto.
    destruct Hok' as [_ Ht']. rewrite H1 in Ht'. tauto.
Qed.

(** X15.  At most one throttle timer is ever pending, and outside a
    throttle window the layout follows the window: [isScreenSizeSm] is
    [innerWidth <= smBreakpoint] and the track is 150px wide on a small
    screen and 350px wide otherwise. *)
Theorem track_width_follows_the_window (w : World) :
  reachable w ->
  (List.length (throttle_timers w) <= 1)%nat /\
  (inThrottle (throttle_state w) = false ->
   throttle_timers w = [] /\
   isScreenSizeSm (this w) =
     Qle_bool (innerWidth w) (Options.smBreakpoint (options (this w))) /\
   exists k, galleryTrack (this w) = Some k /\
     Style.width (Track.style k) =
       (Number_toString
          (if Qle_bool (innerWidth w) (Options.smBreakpoint (options (this w)))
           then 150 else 350) ++ "px")%string).
Proof.
  intros R. destruct (reachable_throttle w R) as [_ Ht]. split.
  - destruct (inThrottle (throttle_state w)).
    + destruct Ht as [_ [id ->]]. cbn. lia.
    + destruct Ht as [-> _]. cbn. lia.
  - intros Hin. rewrite Hin in Ht. destruct Ht as [H1 H2]. repeat split; auto.
    destruct (reachable_shows w R) as (k & Hk & _ & Hw).
    exists k. split; [exact Hk|]. rewrite Hw. unfold rendered_track. cbn. now rewrite H2.
Qed.

(** *** The end of a drag *)

Lemma handlePointerUp_ends_drag e w :
  Inv w -> isDragging (this w) = true ->
  let g := this w in
  let w' := settle (handlePointerUp e) w in
  isDragging (this w') = false /\ uncaught w' = uncaught w /\
  (exists k k', galleryTrack g = Some k /\ galleryTrack (this w') = Some k' /\
     Style.cursor (Track.style k') = "grab"%string /\
     Track.pointerCapture k' =
       match Track.pointerCapture k with
       | Some p => if Nat.eqb p (PointerEvent.pointerId e) then None else Some p
       | None => None
       end) /\
  if Qgtb (Math_abs (currentVelocity g)) (Options.flickMinVelocity (options g)) then
    frames w' = [nextHandle w] /\ animationFrameId (this w') = Some (nextHandle w) /\
    timeouts w' = timeouts w
  else
    frames w' = frames w /\
    timeouts w' = timeouts w ++ [(nextHandle w, transition_reset, 300)].
Proof.
  intros H Hd. cbv zeta. break_world w. simp. subst. settle_at. wp_run.
  all: unfold Inv, track_shows_rotation, one_frame in H; simp; inv_hyps.
  all: repeat match goal with H : _ = _ |- _ => rewrite H end.
  all: cbn [filter]; rewrite ?Pos.eqb_refl; cbn [negb filter app].
  all: repeat match goal with |- _ /\ _ => split end; try reflexivity.
  all: do 2 eexists; split; [reflexivity|]; split; [reflexivity|]; simp;
       repeat match goal with H : _ = _ |- _ => rewrite H end; split; reflexivity.
Qed.

(** X16.  The release of a drag.  [pointercancel] does what [pointerup]
    does.  The drag ends, the cursor is [grab] again, the capture of the
    event's pointer is released and nothing is thrown; above
    [flickMinVelocity] exactly one animation frame is requested and the
    rotation stays for the frame to change, otherwise no frame is requested
    and the snap leaves one timeout of 300 ms that resets the
    transition. *)
Theorem pointerup_ends_the_drag (w : World) (e : PointerEvent.t) (now : Q) :
  reachable w ->
  isDragging (this w) = true ->
  let g := this w in
  let w' := fire (Dispatched pointerup e now) w in
  fire (Dispatched pointercancel e now) w = w' /\
  isDragging (this w') = false /\ uncaught w' = uncaught w /\
  (exists k k', galleryTrack g = Some k /\ galleryTrack (this w') = Some k' /\
     Style.cursor (Track.style k') = "grab"%string /\
     Track.pointerCapture k' =
       match Track.pointerCapture k with
       | Some p => if Nat.eqb p (PointerEvent.pointerId e) then None else Some p
       | None => None
       end) /\
  (Options.flickMinVelocity (options g) < Math_abs (currentVelocity g) ->
   frames w' = [nextHandle w] /\ animationFrameId (this w') = Some (nextHandle w) /\
   timeouts w' = timeouts w /\ rotationDegrees (this w') = rotationDegrees g) /\
  (Math_abs (currentVelocity g) <= Options.flickMinVelocity (options g) ->
   frames w' = frames w /\
   timeouts w' = timeouts w ++ [(nextHandle w, transition_reset, 300)]).
Proof.
  intros R Hd. cbv zeta. pose proof (reachable_Inv w R) as HI.
  destruct (reachable_facts w R) as (_ & _ & _ & Lu & Lc).
  split; [cbn [fire]; now rewrite Lu, Lc|].
  rewrite (fire_pointerup e now w R).
  destruct (handlePointerUp_ends_drag e w HI Hd) as (H1 & H2 & H3 & H4).
  destruct (handlePointerUp_result e w HI Hd) as [_ H5].
  split; [exact H1|]. split; [exact H2|]. split; [exact H3|]. split; intros Hv.
  - apply Qgtb_true in Hv. rewrite Hv in H4, H5. tauto.
  - apply Qgtb_false in Hv. rewrite Hv in H4. exact H4.
Qed.

(** *** Exceptions *)

Lemma quiet_listener l e now w :
  Inv w ->
  (match l with
   | bound_handlePointerDown | bound_handlePointerMove => has_position e = true
   | _ => True
   end) ->
  uncaught (settle (run_listener l e now) w) = uncaught w.
Proof.
  intros H Hp. destruct e as [button x touches pointerId]. unfold has_position in Hp.
  destruct l; break_world w; settle_at; wp_run.
  all: try (unfold Inv, track_shows_rotation in H; simp; inv_hyps; simp; reflexivity).
  all: simp; repeat match goal with E : truthy _ = _ |- _ => rewrite E in Hp end;
       cbn in Hp; discriminate.
Qed.

Lemma quiet_timeout cb w : Inv w -> uncaught (settle (run_timeout cb) w) = uncaught w.
Proof.
  intros H. destruct cb; break_world w; settle_at; wp_run.
  all: unfold Inv, track_shows_rotation in H; simp; inv_hyps; simp; reflexivity.
Qed.

Lemma quiet_autoplay_tick w : Inv w -> uncaught (settle autoplay_tick w) = uncaught w.
Proof.
  intros H. break_world w; settle_at; wp_run.
  all: unfold Inv, track_shows_rotation in H; simp; inv_hyps; simp; reflexivity.
Qed.

Lemma quiet_animate w fs : Inv w -> uncaught (settle animate (set_frames fs w)) = uncaught w.
Proof.
  intros H. break_world w; settle_at; wp_run.
  all: unfold Inv, track_shows_rotation in H; simp; inv_hyps; simp; reflexivity.
Qed.

Lemma listeners_for_type w type :
  reachable w ->
  listeners_for type w =
  match type with
  | resize => [throttled_resize]
  | pointerdown => [bound_handlePointerDown]
  | pointermove => [bound_handlePointerMove]
  | pointerup | pointercancel => [bound_handlePointerUp]
  | mouseenter =>
      if Options.autoplay (options (this w)) && Options.pauseOnHover (options (this w))
      then [bound_handleMouseEnter] else []
  | mouseleave =>
      if Options.autoplay (options (this w)) && Options.pauseOnHover (options (this w))
      then [bound_handleMouseLeave] else []
  end.
Proof.
  intros R. unfold listeners_for. rewrite (reachable_listeners w R). unfold attached_listeners.
  destruct (Options.autoplay (options (this w)) && Options.pauseOnHover (options (this w)));
    destruct type; reflexivity.
Qed.

(** X17.  The only exception the gallery ever throws is the one of
    [e.clientX || e.touches[0].clientX]: an event other than a
    [pointerdown] or [pointermove], or one of these with a [clientX] other
    than 0 or with a first touch, goes through every reachable world
    without an uncaught exception. *)
Theorem no_exception_when_position_is_readable (ev : Event) (w : World) :
  reachable w -> position_readable ev = true -> uncaught (fire ev w) = uncaught w.
Proof.
  intros R Hp. pose proof (reachable_Inv w R) as HI.
  destruct ev as [width | type e now | id | id | id]; cbn [fire].
  - cbv zeta.
    change (listeners_for resize (set_innerWidth width w)) with (listeners_for resize w).
    rewrite (listeners_for_type w resize R). cbn [fold_left].
    rewrite quiet_listener; [reflexivity | exact HI | exact I].
  - rewrite (listeners_for_type w type R).
    destruct type; cbn [position_readable] in Hp;
      try destruct (Options.autoplay (options (this w)) && Options.pauseOnHover (options (this w)));
      cbn [fold_left]; try reflexivity;
      (rewrite quiet_listener; [reflexivity | exact HI | first [exact Hp | exact I]]).
  - destruct (existsb _ _); [now apply quiet_autoplay_tick | reflexivity].
  - destruct (existsb _ _); [| reflexivity]. now rewrite quiet_animate.
  - destruct (find _ _) as [[[? cb] ?]|]; [| reflexivity].
    apply (quiet_timeout cb (set_timeouts _ w)). exact HI.
Qed.

(** *** The listeners *)

(** X19.  Listeners are attached once, by [attachEventListeners]: in every
    reachable world the registered listeners are the five of the resize and
    the pointer events, and the two hover listeners when [autoplay] and
    [pauseOnHover] are both on; no event adds or removes a listener or
    changes the options. *)
Theorem listeners_are_registered_once (w : World) :
  reachable w ->
  listeners w = attached_listeners (options (this w)) /\
  forall ev, listeners (fire ev w) = listeners w /\ options (this (fire ev w)) = options (this w).
Proof.
  intros R. split; [exact (reachable_listeners w R)|].
  intros ev. split; [| apply fire_options].
  rewrite (reachable_listeners w R), (reachable_listeners _ (reachable_fire ev w R)).
  now rewrite fire_options.
Qed.

End Behaviour.

(** ** The claims on the concrete page *)

#[local] Existing Instance example_builtins.

(** The example worlds are reachable. *)
Lemma example_gallery_reachable : reachable example_gallery.
Proof. apply reachable_new. Qed.

Lemma example_autoplay_gallery_reachable : reachable example_autoplay_gallery.
Proof. apply reachable_new. Qed.

Lemma example_drag_started_reachable : reachable example_drag_started.
Proof. apply reachable_fire, example_gallery_reachable. Qed.

Lemma example_dragged_far_reachable : reachable example_dragged_far.
Proof. apply reachable_run, example_drag_started_reachable. Qed.

Lemma example_dragged_fast_reachable : reachable example_dragged_fast.
Proof. apply reachable_fire, example_drag_started_reachable. Qed.

Lemma example_flick_reachable : reachable example_flick.
Proof. apply reachable_fire, example_dragged_fast_reachable. Qed.

Lemma example_slow_flick_reachable : reachable example_slow_flick.
Proof. apply reachable_run, example_drag_started_reachable. Qed.

(** C1 as the claim states it fails.  Four images, faces 90 degrees apart; a
    drag has brought the rotation to 400 degrees and the pointer rests
    (velocity 0).  On release the rotation snaps to 0, the nearest multiple
    of 90 to [400 % 360 = 40]; the nearest multiple of 90 to 400 is 360. *)
Lemma snap_misses_nearest_multiple_of_rotation :
  isDragging (this example_dragged_far) = true /\
  currentVelocity (this example_dragged_far) == 0 /\
  rotationDegrees (this example_dragged_far) == 400 /\
  360 / length_number (images (this example_dragged_far)) == 90 /\
  rotationDegrees (this (fire (Dispatched pointerup (pointer_at 8100) 30) example_dragged_far))
    == 0 /\
  ~ nearest_multiple (360 / length_number (images (this example_dragged_far)))
      (rotationDegrees (this example_dragged_far))
      (rotationDegrees
         (this (fire (Dispatched pointerup (pointer_at 8100) 30) example_dragged_far))).
Proof.
  repeat split; try reflexivity.
  intros [_ H]. specialize (H 4%Z). revert H. vm_compute. intros H. apply H. reflexivity.
Qed.

(** C1, amended, on that release (face 0, and 0 is an integer nearest to
    [(400 % 360) / 90]) and on the frame that ends the slow flick. *)
Lemma snap_goes_to_the_face_nearest_the_quotient_witness :
  (exists nearestFaceIndex : Z,
     rotationDegrees
       (this (fire (Dispatched pointerup (pointer_at 8100) 30) example_dragged_far))
       = inject_Z nearestFaceIndex * (360 / length_number (images (this example_dragged_far))) /\
     nearest_integer
       (js_rem (rotationDegrees (this example_dragged_far)) 360
        / (360 / length_number (images (this example_dragged_far)))) nearestFaceIndex) /\
  (exists nearestFaceIndex : Z,
     rotationDegrees (this (fire (AnimationFrameFires 1%positive) example_slow_flick))
       = inject_Z nearestFaceIndex * (360 / length_number (images (this example_slow_flick))) /\
     nearest_integer
       (js_rem (rotationDegrees (this example_slow_flick)
                + currentVelocity (this example_slow_flick)) 360
        / (360 / length_number (images (this example_slow_flick)))) nearestFaceIndex).
Proof.
  split.
  - apply (proj1 (snap_goes_to_the_face_nearest_the_quotient example_dragged_far
                    (pointer_at 8100) 30 example_dragged_far_reachable)).
    + reflexivity.
    + apply Qle_bool_iff. vm_compute. reflexivity.
  - apply (proj2 (snap_goes_to_the_face_nearest_the_quotient example_slow_flick
                    (pointer_at 0) 0 example_slow_flick_reachable) 1%positive).
    + vm_compute. left. reflexivity.
    + apply Qle_bool_iff. vm_compute. reflexivity.
Defined.

(** C2's failing input: the drag started at 100, the pointer moves to the
    left edge. *)
Lemma pointermove_at_clientX_zero_throws_witness :
  handlePointerMove 10 (pointer_at 0) example_drag_started =
    (Throw "TypeError: Cannot read properties of undefined (reading '0')",
     example_drag_started) /\
  rotationDegrees (this (fire (Dispatched pointermove (pointer_at 0) 10) example_drag_started))
    = rotationDegrees (this example_drag_started).
Proof.
  destruct (pointermove_at_clientX_zero_throws example_drag_started (pointer_at 0) 10)
    as [H1 H2]; [reflexivity | reflexivity | reflexivity |].
  split; [exact H1 | exact (H2 example_drag_started_reachable)].
Defined.


(** C4 on the first frame of the fast flick, which requests the next one,
    and on the frame of the slow flick, which ends it on face 0. *)
Lemma flick_frame_step_witness :
  (currentVelocity (this (fire (AnimationFrameFires 1%positive) example_flick)) =
     currentVelocity (this example_flick) * Options.flickDecay (options (this example_flick)) /\
   rotationDegrees (this (fire (AnimationFrameFires 1%positive) example_flick)) =
     rotationDegrees (this example_flick) + currentVelocity (this example_flick) /\
   frames (fire (AnimationFrameFires 1%positive) example_flick) = [nextHandle example_flick]) /\
  (rotationDegrees (this (fire (AnimationFrameFires 1%positive) example_slow_flick)) == 0 /\
   frames (fire (AnimationFrameFires 1%positive) example_slow_flick) = []).
Proof.
  split.
  - destruct (flick_frame_step example_flick 1%positive example_flick_reachable)
      as (Hv & Hgo & _); [vm_compute; left; reflexivity |].
    destruct Hgo as (Hr & Hf & _); [vm_compute; reflexivity |].
    split; [exact Hv | split; [exact Hr | exact Hf]].
  - destruct (flick_frame_step example_slow_flick 1%positive example_slow_flick_reachable)
      as (_ & _ & Hstop); [vm_compute; left; reflexivity |].
    destruct Hstop as (Hr & Hf); [apply Qle_bool_iff; vm_compute; reflexivity |].
    split; [rewrite Hr; vm_compute; reflexivity | exact Hf].
Defined.

(** C5 on the first tick of an autoplaying gallery of four images. *)
Lemma autoplay_tick_rotates_one_face_witness :
  intervals example_autoplay_gallery =
    [(1%positive, Options.autoplayIntervalMs (options (this example_autoplay_gallery)))] /\
  rotationDegrees (this (fire (IntervalFires 1%positive) example_autoplay_gallery)) == -90.
Proof.
  destruct (autoplay_tick_rotates_one_face example_autoplay_gallery 1%positive
              example_autoplay_gallery_reachable eq_refl) as [H1 [k [_ H2]]].
  split; [exact H1 | rewrite H2; reflexivity].
Defined.

(** C6 on a gallery constructed with no options at all. *)
Lemma empty_image_list_falls_back_witness :
  images (this (new_RollingGallery UserOptions.none 1024)) = [placeholder] /\
  console (new_RollingGallery UserOptions.none 1024) = [no_images_warning].
Proof.
  destruct (empty_image_list_falls_back UserOptions.none 1024 eq_refl) as (_ & H1 & H2 & _).
  split; [exact H1 | exact H2].
Defined.

(** C7 after the long drag, where the transform already shows the rotation
    and [updateTransform] rewrites it to the same, and on a page whose
    gallery has no track yet. *)
Lemma updateTransform_applies_rotation_witness :
  updateTransform example_dragged_far = (Normal tt, example_dragged_far) /\
  (exists k, galleryTrack (this example_dragged_far) = Some k /\
             Style.transform (Track.style k) = "rotateY(400deg)"%string) /\
  updateTransform (fresh_page 1024) = (Normal tt, fresh_page 1024).
Proof.
  split; [|split].
  - pose proof (proj1 (updateTransform_applies_rotation example_dragged_far)) as H.
    destruct (galleryTrack (this example_dragged_far)) as [k|] eqn:E.
    + rewrite (H k eq_refl). vm_compute in E. injection E as <-. vm_compute. reflexivity.
    + vm_compute in E. discriminate E.
  - destruct (proj2 (proj2 (updateTransform_applies_rotation example_dragged_far))
                example_dragged_far_reachable) as [k [H1 H2]].
    exists k. split; [exact H1 | rewrite H2; reflexivity].
  - exact (proj1 (proj2 (updateTransform_applies_rotation (fresh_page 1024))) eq_refl).
Defined.

(** C8 after the long drag. *)
Lemma images_never_empty_witness :
  (1 <= List.length (images (this example_dragged_far)))%nat /\
  ~ length_number (images (this example_dragged_far)) == 0.
Proof.
  exact (proj2 images_never_empty example_dragged_far example_dragged_far_reachable).
Defined.

(** C9 on the autoplaying gallery, whose interval has handle 1. *)
Lemma startAutoplay_idempotent_witness :
  startAutoplay example_autoplay_gallery = (Normal tt, example_autoplay_gallery) /\
  (List.length (intervals example_autoplay_gallery) <= 1)%nat.
Proof.
  split.
  - exact (proj1 (startAutoplay_idempotent example_autoplay_gallery) 1%positive eq_refl).
  - exact (proj2 (startAutoplay_idempotent example_autoplay_gallery)
             example_autoplay_gallery_reachable).
Defined.

(** C10 on the gallery at rest: a right-button press, a move and a release. *)
Lemma pointer_events_outside_drag_witness :
  fire (Dispatched pointerdown (right_button_at 50) 5) example_gallery = example_gallery /\
  fire (Dispatched pointermove (pointer_at 50) 5) example_gallery = example_gallery /\
  fire (Dispatched pointerup (pointer_at 50) 5) example_gallery = example_gallery.
Proof.
  destruct (pointer_events_outside_drag example_gallery (right_button_at 50) 5) as [Hdown _].
  destruct (pointer_events_outside_drag example_gallery (pointer_at 50) 5) as [_ Hmove].
  destruct Hdown as [_ Hdown]; [discriminate | reflexivity |].
  destruct Hmove as (_ & _ & Hmove); [reflexivity |].
  destruct (Hmove example_gallery_reachable) as (H1 & H2 & _).
  split; [exact (Hdown example_gallery_reachable) | split; [exact H1 | exact H2]].
Defined.

(** ** The further properties on the concrete page *)

Lemma example_hover_gallery_reachable : reachable example_hover_gallery.
Proof. apply reachable_new. Qed.

Lemma example_autoplay_drag_reachable : reachable example_autoplay_drag.
Proof. apply reachable_fire, reachable_new. Qed.

Lemma example_resized_reachable : reachable example_resized.
Proof. apply reachable_fire, reachable_new. Qed.

Lemma example_resized_back_reachable : reachable example_resized_back.
Proof. apply reachable_fire, example_resized_reachable. Qed.

Lemma example_narrow_reachable : reachable example_narrow.
Proof. apply reachable_fire, example_resized_reachable. Qed.

(** X1 on the gallery of four images. *)
Lemma track_holds_one_item_per_image_witness :
  exists k, galleryTrack (this example_gallery) = Some k /\
    Style.width (Track.style k) = "350px"%string /\
    map Item.img_src (Track.items k) = ["a.jpg"; "b.jpg"; "c.jpg"; "d.jpg"]%string.
Proof.
  destruct (track_holds_one_item_per_image example_gallery example_gallery_reachable)
    as (k & H1 & H2 & H3 & _).
  exists k. split; [exact H1 | split; [exact H2 | exact H3]].
Defined.

(** X2 during the flick of the gallery without autoplay. *)
Lemma no_interval_without_autoplay_witness :
  intervals example_flick = [] /\
  fire (IntervalFires 1%positive) example_flick = example_flick.
Proof.
  destruct (no_interval_without_autoplay example_flick example_flick_reachable eq_refl)
    as (_ & H1 & H2).
  split; [exact H1 | exact (H2 1%positive)].
Defined.

(** X3 on the gallery with autoplay and [pauseOnHover]. *)
Lemma hover_pauses_and_resumes_autoplay_witness :
  intervals example_hover_gallery = [(1%positive, 4000)] /\
  intervals (fire (Dispatched mouseenter (pointer_at 5) 0) example_hover_gallery) = [] /\
  intervals (fire (Dispatched mouseleave (pointer_at 5) 0)
               (fire (Dispatched mouseenter (pointer_at 5) 0) example_hover_gallery))
    = [(2%positive, 4000)].
Proof.
  split; [reflexivity|].
  destruct (hover_pauses_and_resumes_autoplay example_hover_gallery (pointer_at 5) 0
              example_hover_gallery_reachable) as [_ H].
  destruct (H eq_refl eq_refl) as (H1 & _ & _ & H4 & _).
  split; [exact H1 | exact H4].
Defined.

(** X4 on a resize during the flick. *)
Lemma passive_events_do_not_move_the_gallery_witness :
  motion (fire (WindowResized 500) example_flick) = motion example_flick.
Proof.
  exact (passive_events_do_not_move_the_gallery (WindowResized 500) example_flick
           example_flick_reachable eq_refl).
Defined.

(** X5 on a pointer down that catches the flick. *)
Lemma pointerdown_starts_a_drag_witness :
  frames example_flick = [1%positive] /\
  isDragging (this (fire (Dispatched pointerdown (pointer_at 100) 20) example_flick)) = true /\
  frames (fire (Dispatched pointerdown (pointer_at 100) 20) example_flick) = [] /\
  currentVelocity (this (fire (Dispatched pointerdown (pointer_at 100) 20) example_flick)) = 0.
Proof.
  split; [reflexivity|].
  destruct (pointerdown_starts_a_drag example_flick (pointer_at 100) 20 example_flick_reachable)
    as (H1 & _ & _ & _ & _ & _ & H7 & _ & _ & _ & H11 & _).
  - left. reflexivity.
  - intros H. discriminate H.
  - split; [exact H1 | split; [exact H11 | exact H7]].
Defined.

(** X6 on the gallery of four images. *)
Lemma pointerdown_at_clientX_zero_leaves_half_a_drag_witness :
  isDragging (this (fire (Dispatched pointerdown (pointer_at 0) 0) example_gallery)) = true /\
  startX (this (fire (Dispatched pointerdown (pointer_at 0) 0) example_gallery)) = 0 /\
  uncaught (fire (Dispatched pointerdown (pointer_at 0) 0) example_gallery) =
    ["TypeError: Cannot read properties of undefined (reading '0')"%string].
Proof.
  rewrite (pointerdown_at_clientX_zero_leaves_half_a_drag example_gallery (pointer_at 0) 0
             example_gallery_reachable eq_refl (Qeq_refl 0) eq_refl).
  repeat split.
Defined.

(** X7 on the release of a drag of the autoplaying gallery. *)
Lemma autoplay_resumes_when_motion_ends_witness :
  intervals example_autoplay_drag = [] /\
  exists id, intervals (fire (Dispatched pointerup (pointer_at 100) 5) example_autoplay_drag)
             = [(id, 4000)].
Proof.
  split; [reflexivity|].
  destruct (autoplay_resumes_when_motion_ends example_autoplay_drag (pointer_at 100) 5
              example_autoplay_drag_reachable eq_refl) as [H _].
  destruct H as (id & _ & H); [reflexivity | apply Qle_bool_iff; vm_compute; reflexivity |].
  exists id. exact H.
Defined.

(** X9 on the move of 10 pixels in 10 ms. *)
Lemma pointermove_during_a_drag_witness :
  rotationDegrees (this (fire (Dispatched pointermove (pointer_at 110) 10) example_drag_started))
    == 1 # 2 /\
  currentVelocity (this (fire (Dispatched pointermove (pointer_at 110) 10) example_drag_started))
    == 50.
Proof.
  pose proof (pointermove_during_a_drag example_drag_started (pointer_at 110) 10
                example_drag_started_reachable eq_refl) as H.
  destruct H as (H1 & H2 & _); [intros H; discriminate H |].
  split; [rewrite H1 | rewrite H2]; vm_compute; reflexivity.
Defined.

(** X10 on a drag to 8100 and back to 150. *)
Lemma drag_rotation_depends_on_last_position_only_witness :
  rotationDegrees
    (this (run [Dispatched pointermove (pointer_at 8100) 10;
                Dispatched pointermove (pointer_at 150) 20] example_drag_started))
    == 5 # 2.
Proof.
  pose proof (drag_rotation_depends_on_last_position_only example_drag_started
                [(pointer_at 8100, 10)] (pointer_at 150) 20
                example_drag_started_reachable eq_refl) as H.
  cbv zeta in H. cbn [pointermoves map app fst snd] in H. rewrite H.
  - vm_compute. reflexivity.
  - repeat constructor. intros E. discriminate E.
  - intros E. discriminate E.
Defined.

(** X11 on four ticks of the autoplaying gallery of four images. *)
Lemma autoplay_ticks_subtract_one_face_each_witness :
  rotationDegrees (this (run (repeat (IntervalFires 1%positive) 4) example_autoplay_gallery))
    == - 360.
Proof.
  destruct (autoplay_ticks_subtract_one_face_each example_autoplay_gallery 1%positive 4
              example_autoplay_gallery_reachable eq_refl) as [H _].
  rewrite H. vm_compute. reflexivity.
Defined.

(** X13: the resize to 500 opens a throttle window and lays the gallery out
    for a small screen; the resize to 800 within the window is only
    recorded. *)
Lemma resize_is_throttled_witness :
  inThrottle (throttle_state example_resized) = true /\
  isScreenSizeSm (this example_resized) = true /\
  fire (WindowResized 800) example_resized = set_innerWidth 800 example_resized.
Proof.
  destruct (resize_is_throttled example_gallery 500 example_gallery_reachable) as [_ H].
  destruct (H eq_refl) as (H1 & H2 & _).
  destruct (resize_is_throttled example_resized 800 example_resized_reachable) as [H3 _].
  split; [exact H1 | split; [exact H2 | exact (H3 H1)]].
Defined.

(** X14: the window went to 500 and, within the throttle window, back to
    1024; the layout is still the small one, and the large one when the
    timer fires. *)
Lemma throttle_window_ends_with_the_current_width_witness :
  isScreenSizeSm (this example_resized_back) = true /\
  exists id, throttle_timers example_resized_back = [(id, throttle_release, 100)] /\
    inThrottle (throttle_state (fire (TimeoutFires id) example_resized_back)) = false /\
    isScreenSizeSm (this (fire (TimeoutFires id) example_resized_back)) = false.
Proof.
  split; [reflexivity|].
  destruct (throttle_window_ends_with_the_current_width example_resized_back
              example_resized_back_reachable eq_refl) as (id & H1 & H2 & _ & H3 & _).
  exists id. split; [exact H1 | split; [exact H2 | exact H3]].
Defined.

(** X15 once the throttle window of the resize to 500 is over. *)
Lemma track_width_follows_the_window_witness :
  exists k, galleryTrack (this example_narrow) = Some k /\
            Style.width (Track.style k) = "150px"%string.
Proof.
  destruct (track_width_follows_the_window example_narrow example_narrow_reachable) as [_ H].
  destruct (H eq_refl) as (_ & _ & k & H1 & H2).
  exists k. split; [exact H1 | exact H2].
Defined.

(** X16 on the release at 50 degrees a frame. *)
Lemma pointerup_ends_the_drag_witness :
  isDragging (this example_dragged_fast) = true /\
  isDragging (this (fire (Dispatched pointerup (pointer_at 110) 12) example_dragged_fast))
    = false /\
  frames (fire (Dispatched pointerup (pointer_at 110) 12) example_dragged_fast)
    = [1%positive] /\
  fire (Dispatched pointercancel (pointer_at 110) 12) example_dragged_fast
    = fire (Dispatched pointerup (pointer_at 110) 12) example_dragged_fast.
Proof.
  split; [reflexivity|].
  destruct (pointerup_ends_the_drag example_dragged_fast (pointer_at 110) 12
              example_dragged_fast_reachable eq_refl) as (H1 & H2 & _ & _ & H5 & _).
  destruct H5 as (H5 & _); [vm_compute; reflexivity|].
  split; [exact H2 | split; [exact H5 | exact H1]].
Defined.

(** X17 on a move of the drag. *)
Lemma no_exception_when_position_is_readable_witness :
  uncaught (fire (Dispatched pointermove (pointer_at 110) 10) example_drag_started)
    = uncaught example_drag_started.
Proof.
  exact (no_exception_when_position_is_readable (Dispatched pointermove (pointer_at 110) 10)
           example_drag_started example_drag_started_reachable eq_refl).
Defined.

(** X19 on a pointer down that catches the flick. *)
Lemma listeners_are_registered_once_witness :
  List.length (listeners example_flick) = 5%nat /\
  listeners (fire (Dispatched pointerdown (pointer_at 100) 20) example_flick)
    = listeners example_flick.
Proof.
  destruct (listeners_are_registered_once example_flick example_flick_reachable) as [H1 H2].
  split; [rewrite H1; reflexivity | exact (proj1 (H2 _))].
Defined.
